(** * SpineML generator: model-code translation core

    A shallow embedding of the SpineML-to-GeNN translation helpers
    (spineMLModelCommon: value resolvers, [CodeStream::onRegimeEnd],
    [generateModelCode], [wrapAndReplaceVariableNames],
    [findModelVariables]) and of the [SpineMLNeuronModel] constructor,
    with the properties their specification states about them. *)

From Stdlib Require Import Ascii String SpecFloat.
From stdpp Require Import base option list sorting strings pretty gmap.

Local Open Scope string_scope.
Local Open Scope list_scope.
Local Open Scope N_scope.

(** ** Exceptions

    Every failure in the sources is a [throw std::runtime_error(msg)]; a
    computation that can throw returns [Err msg] instead of a value. *)

Inductive result (A : Type) : Type :=
  | Ok (a : A)
  | Err (what : string).
Arguments Ok {A} a.
Arguments Err {A} what.

(** [result] is a monad for stdpp's [x ← r; k] notation. *)
#[export] Instance result_ret : MRet result := λ A a, Ok a.
#[export] Instance result_bind : MBind result := λ A B k r,
  match r with
  | Ok a => k a
  | Err e => Err e
  end.

(** A range-based [for] loop whose body may throw: the state is threaded
    through the elements in order and the first exception leaves the loop. *)
Fixpoint for_each {A S} (body : A → S → result S) (l : list A) (s : S)
    : result S :=
  match l with
  | [] => Ok s
  | x :: l' => s' ← body x s; for_each body l' s'
  end.

(** ** The pugixml document tree

    An element carries its tag, its attributes in document order, the
    character data it holds, and its child elements in document order.  A
    [pugi::xml_node] is a handle that may be null: [child] of a missing
    element yields the null handle, on which every query answers with the
    empty string or the empty range. *)
Module pugi.

#[warnings="-register-all"]
Inductive xml_tree : Type :=
  | Element (tag : string) (attrs : list (string * string))
            (pcdata : string) (kids : list xml_tree).

Definition xml_node := option xml_tree.

Definition tag_of (t : xml_tree) : string :=
  match t with Element n _ _ _ => n end.

Definition all_children (h : xml_node) : list xml_tree :=
  match h with
  | Some (Element _ _ _ ks) => ks
  | None => []
  end.

(** [h.children(n)]: the child elements named [n], in document order. *)
Definition children (h : xml_node) (n : string) : list xml_tree :=
  filter (λ k, tag_of k = n) (all_children h).

(** [h.child(n)]: the first child element named [n], or the null handle. *)
Definition child (h : xml_node) (n : string) : xml_node :=
  head (children h n).

Fixpoint first_attribute (attrs : list (string * string)) (a : string)
    : option string :=
  match attrs with
  | [] => None
  | (k, v) :: attrs' =>
      if String.eqb k a then Some v else first_attribute attrs' a
  end.

(** [h.attribute(a).value()]: the empty string when the handle is null or
    the attribute is missing. *)
Definition attribute_value (h : xml_node) (a : string) : string :=
  match h with
  | Some (Element _ attrs _ _) => default "" (first_attribute attrs a)
  | None => ""
  end.

(** [h.text().get()] and [h.child_value()]. *)
Definition text (h : xml_node) : string :=
  match h with
  | Some (Element _ _ txt _) => txt
  | None => ""
  end.

(** [h.child_value(n)] is [h.child(n).child_value()]. *)
Definition child_value (h : xml_node) (n : string) : string :=
  text (child h n).

(** The handle tested as a condition: [if(h)], [if(!h)]. *)
Definition is_null (h : xml_node) : bool :=
  match h with Some _ => false | None => true end.

End pugi.
Import pugi.

(** Shorthands for queries on a node reached by iteration (never null). *)
Definition attr (t : xml_tree) (a : string) : string :=
  attribute_value (Some t) a.
Definition kids_named (t : xml_tree) (n : string) : list xml_tree :=
  children (Some t) n.

(** ** [std::map<std::string, unsigned int>]: the regime-ID table *)

(** Conversion of a [size_t] to [unsigned int]. *)
Definition to_unsigned (n : N) : N := n mod 2 ^ 32.

(** [m.insert(hint, {k, v})]: an existing key keeps its value. *)
Definition map_insert (m : gmap string N) (k : string) (v : N)
    : gmap string N :=
  match m !! k with
  | Some _ => m
  | None => <[k := v]> m
  end.

(** [m[k]]: a missing key is first inserted with a value-initialised
    (zero) ID; the value and the updated map are returned. *)
Definition map_index (m : gmap string N) (k : string) : N * gmap string N :=
  match m !! k with
  | Some v => (v, m)
  | None => (0, <[k := 0]> m)
  end.

(** "Build mapping from regime names to IDs": each Regime child of
    Dynamics, in document order, is offered to the map with the map's
    current size as its ID. *)
Definition build_regimeIDs (regimes : list xml_tree) : gmap string N :=
  foldl (λ m n, map_insert m (attr n "name") (to_unsigned (N.of_nat (size m))))
        ∅ regimes.

(** ** Output streams

    What has been streamed into a code stream, in order.  Text is kept as
    written; an [unsigned int] is streamed in decimal; the brace and
    line-end manipulators of GeNN's code helpers ([OB(n)], [CB(n)],
    [ENDL]) are declared outside these sources and are kept symbolic. *)
Inductive item : Type :=
  | Text (s : string)
  | OB (level : N)
  | CB (level : N)
  | ENDL.

Definition code := list item.

(** [os << "text"], [os << id], [os << OB(n)] *)
Definition put (os : code) (x : item) : code := os ++ [x].
Definition put_unsigned (os : code) (n : N) : code := put os (Text (pretty n)).

Infix "<<" := put (at level 50, left associativity).
Infix "<<#" := put_unsigned (at level 50, left associativity).

(** ** [SpineMLGenerator::CodeStream] *)
Module CodeStream.

Record t : Type := mk {
  m_CodeStream : code;
  m_CurrentRegimeStream : string;   (* a [std::ostringstream] *)
  m_FirstNonEmptyRegime : bool
}.

(** A freshly constructed stream object. *)
Definition init : t := mk [] "" true.

(** Text a handler streams into the current regime's buffer. *)
Definition write (s : string) (cs : t) : t :=
  mk (m_CodeStream cs) (m_CurrentRegimeStream cs +:+ s)
     (m_FirstNonEmptyRegime cs).

(** [tellp()] of an output string stream that is only appended to. *)
Definition tellp (s : string) : nat := String.length s.

Definition onRegimeEnd (multipleRegimes : bool) (currentRegimeID : N)
    (cs : t) : t :=
  (* If any code was written for this regime *)
  if (0 <? tellp (m_CurrentRegimeStream cs))%nat then
    let '(out, first) :=
      if multipleRegimes then
        let '(out, first) :=
          if m_FirstNonEmptyRegime cs
          then (m_CodeStream cs, false)
          else (m_CodeStream cs << Text "else ", m_FirstNonEmptyRegime cs) in
        (out << Text "if(_regimeID == " <<# currentRegimeID << Text ")"
             << OB 1, first)
      else (m_CodeStream cs, m_FirstNonEmptyRegime cs) in
    (* Write contents of current regime code stream to main code stream *)
    let out := out << Text (m_CurrentRegimeStream cs) in
    (* Clear current regime code stream; end of regime *)
    let out := if multipleRegimes then out << CB 1 else out in
    mk out "" first
  else cs.

End CodeStream.

(** ** [generateModelCode]

    The four object handlers and the regime-end callback are arguments of
    the function; their classes are declared outside these sources.  They
    act on some state [St] of their own and may throw.  Console logging is
    left out. *)
Section generateModelCode.

Context {St : Type}.
Variables objectHandlerEvent objectHandlerCondition objectHandlerImpulse
          objectHandlerTimeDerivative : xml_tree → N → N → St → result St.
Variable regimeEndFunc : bool → N → St → result St.

(** One of the three transition loops: the target regime name is looked
    up with [regimeIDs[targetRegimeName]] and the handler is invoked. *)
Definition transition_loop (onObject : xml_tree → N → N → St → result St)
    (nodes : list xml_tree) (currentRegimeID : N)
    : gmap string N * St → result (gmap string N * St) :=
  for_each (λ node '(regimeIDs, st),
    let targetRegimeName := attr node "target_regime" in
    let '(targetRegimeID, regimeIDs) := map_index regimeIDs targetRegimeName in
    st ← onObject node currentRegimeID targetRegimeID st;
    Ok (regimeIDs, st)) nodes.

Definition regime_body (multipleRegimes : bool) (regime : xml_tree)
    : gmap string N * St → result (gmap string N * St) :=
  λ '(regimeIDs, st),
    let currentRegimeName := attr regime "name" in
    let '(currentRegimeID, regimeIDs) := map_index regimeIDs currentRegimeName in
    (* internal conditions by which the model might leave the regime *)
    s ← transition_loop objectHandlerCondition
          (kids_named regime "OnCondition") currentRegimeID (regimeIDs, st);
    (* events the model might receive *)
    s ← transition_loop objectHandlerEvent
          (kids_named regime "OnEvent") currentRegimeID s;
    (* impulses the model might receive *)
    '(regimeIDs, st) ← transition_loop objectHandlerImpulse
          (kids_named regime "OnImpulse") currentRegimeID s;
    (* time derivatives *)
    st ← for_each (λ timeDerivative st,
            objectHandlerTimeDerivative timeDerivative currentRegimeID 0 st)
          (kids_named regime "TimeDerivative") st;
    (* notify all code streams of the end of the regime *)
    st ← regimeEndFunc multipleRegimes currentRegimeID st;
    Ok (regimeIDs, st).

Definition generateModelCode (componentClass : xml_node) (st : St)
    : result (bool * St) :=
  let dynamics := child componentClass "Dynamics" in
  let regimeIDs := build_regimeIDs (children dynamics "Regime") in
  let multipleRegimes := bool_decide (1 < size regimeIDs)%nat in
  '(_, st) ← for_each (regime_body multipleRegimes)
                      (children dynamics "Regime") (regimeIDs, st);
  Ok (multipleRegimes, st).

End generateModelCode.

(** *** The calls [generateModelCode] makes

    An observer in place of the handlers: every call is appended to a log
    and none throws. *)
Inductive handler : Type := hEvent | hCondition | hImpulse | hTimeDerivative.

Inductive call : Type :=
  | OnObject (h : handler) (node : xml_tree)
             (currentRegimeID targetRegimeID : N)
  | RegimeEnd (multipleRegimes : bool) (currentRegimeID : N).

Definition log_object (h : handler) (node : xml_tree) (cur tgt : N)
    (log : list call) : result (list call) :=
  Ok (log ++ [OnObject h node cur tgt]).

Definition log_regime_end (multipleRegimes : bool) (cur : N)
    (log : list call) : result (list call) :=
  Ok (log ++ [RegimeEnd multipleRegimes cur]).

Definition generateModelCode_log (componentClass : xml_node)
    : result (bool * list call) :=
  generateModelCode (log_object hEvent) (log_object hCondition)
    (log_object hImpulse) (log_object hTimeDerivative) log_regime_end
    componentClass [].

(** ** Token substitution: [wrapAndReplaceVariableNames]

    The function searches the code with the regular expression
    [(^|[^a-zA-Z_])NAME($|[^a-zA-Z_])] and formats every match as
    [$1$(REPLACEMENT)$2].  The matcher below is that expression, for a
    [NAME] made of characters the regex syntax reads literally (letters,
    digits, underscores), and that format, for a [REPLACEMENT] without a
    dollar sign. *)

(** A member of the class [[a-zA-Z_]]. *)
Definition in_name_class (c : ascii) : bool :=
  let n := N_of_ascii c in
  ((97 <=? n) && (n <=? 122)) || ((65 <=? n) && (n <=? 90)) || (n =? 95).

(** [[^a-zA-Z_]] *)
Definition boundary (c : ascii) : bool := negb (in_name_class c).

(** [NAME] read literally at the head of [s]: what follows it.  This is
    what the expression does for a name that is an identifier
    ([is_identifier] below); in any other name the regex syntax may read a
    character as an operator, or reject the expression. *)
Fixpoint match_name (name s : string) : option string :=
  match name with
  | EmptyString => Some s
  | String a name' =>
      match s with
      | String c s' => if Ascii.eqb a c then match_name name' s' else None
      | EmptyString => None
      end
  end.

(** Group 2, [($|[^a-zA-Z_])]: the end of the text, or else one boundary
    character.  The captured text is returned. *)
Definition match_group2 (s : string) : option string :=
  match s with
  | EmptyString => Some EmptyString
  | String c _ => if boundary c then Some (String c EmptyString) else None
  end.

(** [NAME($|[^a-zA-Z_])] at the head of [s]. *)
Definition match_tail (name s : string) : option string :=
  rest ← match_name name s; match_group2 rest.

(** The whole expression at the head of [s].  [bol] tells whether [^]
    holds here.  Group 1 tries [^] first and a boundary character second;
    the captures of groups 1 and 2 are returned. *)
Definition match_here (bol : bool) (name s : string)
    : option (string * string) :=
  match (if bol then match_tail name s else None) with
  | Some g2 => Some (EmptyString, g2)
  | None =>
      match s with
      | String c s' =>
          if boundary c
          then g2 ← match_tail name s'; Some (String c EmptyString, g2)
          else None
      | EmptyString => None
      end
  end.

(** The format [$1$(REPLACEMENT)$2] of one match, for a replacement
    without a dollar sign ([dollar_free] below); a dollar sign in the
    replacement would be read as a reference to the match. *)
Definition format (replaceVariableName g1 g2 : string) : string :=
  g1 +:+ "$(" +:+ replaceVariableName +:+ ")" +:+ g2.

(** [std::regex_replace]: the text is scanned from the left; text before a
    match is copied, a match is replaced by its format and the scan goes
    on behind it, with the characters of the match used up ([skip] counts
    those still to pass).  [^] holds at the very start of the text only:
    later searches run with [match_prev_avail]. *)
Fixpoint regex_replace (name repl : string) (bol : bool) (skip : nat)
    (s : string) : string :=
  match skip with
  | S k =>
      match s with
      | String _ s' => regex_replace name repl false k s'
      | EmptyString => EmptyString
      end
  | O =>
      match match_here bol name s with
      | Some (g1, g2) =>
          format repl g1 g2 +:+
          match s with
          | String _ s' =>
              regex_replace name repl false
                (String.length g1 + String.length name + String.length g2 - 1)
                s'
          | EmptyString => EmptyString
          end
      | None =>
          match s with
          | String c s' => String c (regex_replace name repl false 0 s')
          | EmptyString => EmptyString
          end
      end
  end.

Definition wrapAndReplaceVariableNames (code : string)
    (variableName replaceVariableName : string) : string :=
  regex_replace variableName replaceVariableName true 0 code.

Definition wrapVariableNames (code : string) (variableName : string)
    : string :=
  wrapAndReplaceVariableNames code variableName variableName.

(** An identifier: a letter or underscore, then letters, digits and
    underscores. *)
Definition is_digit (c : ascii) : bool :=
  let n := N_of_ascii c in (48 <=? n) && (n <=? 57).

Fixpoint all_chars (p : ascii → bool) (s : string) : bool :=
  match s with
  | EmptyString => true
  | String c s' => p c && all_chars p s'
  end.

Definition is_identifier (s : string) : bool :=
  match s with
  | EmptyString => false
  | String c s' =>
      in_name_class c && all_chars (λ c, in_name_class c || is_digit c) s'
  end.

(** ** [std::set<std::string>] and [std::map<std::string, double>]

    Both containers are iterated in increasing key order, bytewise
    lexicographic on strings. *)
(** [s.begin() .. s.end()] *)
Definition set_iter (s : gset string) : list string :=
  merge_sort String.le (elements s).

(** [m.begin() .. m.end()] *)
Definition map_iter {V} (m : gmap string V) : list (string * V) :=
  merge_sort (λ a b, String.le a.1 b.1) (map_to_list m).

(** ** [findModelVariables] *)
Definition findModelVariables (componentClass : xml_node)
    (variableParams : gset string) (multipleRegimes : bool)
    : list string * list (string * string) :=
  (* Starting with those the model needs to vary, add model state variables *)
  let dynamics := child componentClass "Dynamics" in
  let gennVariables :=
    foldl (λ s n, s ∪ {[ attr n "name" ]}) variableParams
          (children dynamics "StateVariable") in
  (* Parameters that have not been declared variable *)
  let paramNames :=
    filter (λ paramName, paramName ∉ gennVariables)
           ((λ param, attr param "name") <$>
              children componentClass "Parameter") in
  (* Add all GeNN variables *)
  let vars := (λ vname, (vname, "scalar")) <$> set_iter gennVariables in
  (* If model has multiple regimes, add unsigned int regime ID *)
  let vars :=
    if multipleRegimes then vars ++ [("_regimeID", "unsigned int")]
    else vars in
  (paramNames, vars).

(** ** [double]

    An IEEE 754 binary64 value, as the Standard Library specifies them
    (sign, 53-bit mantissa, exponent).  The resolvers only copy values and
    write the literal [0.0]. *)
Definition double : Type := spec_float.

Definition double_zero : double := S754_zero false.

(** ** Value resolvers: [ParamValues] and [VarValues]

    The model is referenced for its declared names only. *)
Record Model : Type := {
  getParamNames : list string;
  getVars : list (string * string)
}.

Module ParamValues.

Record t : Type := mk {
  m_Values : gmap string double;
  m_Model : Model
}.

(** "Populate this vector with either values from map or 0s" *)
Definition getValues (pv : t) : list double :=
  (λ n, match m_Values pv !! n with
        | None => double_zero
        | Some value => value
        end) <$> getParamNames (m_Model pv).

End ParamValues.

Module VarValues.

Record t : Type := mk {
  m_Values : gmap string double;
  m_Model : Model
}.

Definition getValues (vv : t) : list double :=
  (λ n : string * string,
     match m_Values vv !! n.1 with
     | None => double_zero
     | Some value => value
     end) <$> getVars (m_Model vv).

End VarValues.

(** ** [SpineMLNeuronModel] *)
Module SpineMLNeuronModel.

Record t : Type := mk {
  m_ParamNames : list string;
  m_Vars : list (string * string);
  m_SimCode : code;
  m_ThresholdConditionCode : string
}.

(** The outcome of [doc.load_file(url)]: the document node, or the
    parser's description of the failure. *)
Inductive load_result : Type :=
  | Loaded (doc : xml_tree)
  | LoadError (description : string).

(** [condition.select_node("EventOut[@port='spike']")] finds something. *)
Definition emits_spike (condition : xml_tree) : bool :=
  existsb (λ k,
      match k with
      | Element _ attrs _ _ =>
          existsb (λ a : string * string,
                     String.eqb a.1 "port" && String.eqb a.2 "spike") attrs
      end)
    (kids_named condition "EventOut").

(** The loop variables of the regime loop. *)
Record loop_state : Type := mk_loop {
  regimeIDs : gmap string N;
  simCode : code;
  thresholdCondition : string;
  firstRegime : bool
}.

(** The messages of the exceptions. *)
Definition cannot_open (url description : string) : string :=
  "Could not open file:" +:+ url +:+ ", error:" +:+ description.
Definition no_root (url : string) : string :=
  "XML file:" +:+ url +:+
  " is not a SpineML component - it has no root SpineML node".
Definition wrong_component (url : string) : string :=
  "XML file:" +:+ url +:+
  " is not a SpineML neuron body component - it's ComponentClass node is either missing or of the incorrect type".
Definition no_trigger : string :=
  "No trigger condition for transition between regimes".
Definition not_self_target : string :=
  "Condition found in single-regime model which doesn't target itself".

(** The body of the loop over the conditions of one regime. *)
Definition condition_body (multipleRegimes : bool) (regimeName : string)
    (condition : xml_tree) (s : loop_state) : result loop_state :=
  let targetRegimeName := attr condition "target_regime" in
  (* Get triggering code *)
  let triggerCode := child (child (Some condition) "Trigger") "MathInline" in
  if is_null triggerCode then Err no_trigger else
  (* Write trigger condition *)
  let sim := simCode s << Text "if(" << Text (text triggerCode) << Text ")"
                       << OB 2 in
  (* Loop through state assignments *)
  let sim :=
    foldl (λ sim stateAssign,
             sim << Text (attr stateAssign "variable") << Text " = "
                 << Text (child_value (Some stateAssign) "MathInline")
                 << Text ";" << ENDL)
          sim (kids_named condition "StateAssignment") in
  (* Multiple-regime model: write transition to target regime;
     otherwise check the condition targets the current regime *)
  '(ids, sim) ←
    (if multipleRegimes then
       let '(targetRegimeID, ids) := map_index (regimeIDs s) targetRegimeName in
       Ok (ids, sim << Text "_regimeID = " <<# targetRegimeID << Text ";"
                    << ENDL)
     else if negb (String.eqb targetRegimeName regimeName)
     then Err not_self_target
     else Ok (regimeIDs s, sim));
  (* End of trigger condition *)
  let sim := sim << CB 2 in
  (* If this condition emits a spike *)
  if emits_spike condition then
    let thr :=
      if (0 <? String.length (thresholdCondition s))%nat
      then thresholdCondition s +:+ " || "
      else thresholdCondition s in
    let '(regimeID, ids) := map_index ids regimeName in
    Ok (mk_loop ids sim
          (thr +:+ "(_regimeID == " +:+ pretty regimeID +:+ " && ("
               +:+ text triggerCode +:+ "))")
          (firstRegime s))
  else Ok (mk_loop ids sim (thresholdCondition s) (firstRegime s)).

(** The body of the loop over the regimes. *)
Definition regime_body (multipleRegimes : bool) (regime : xml_tree)
    (s : loop_state) : result loop_state :=
  let regimeName := attr regime "name" in
  (* Write regime condition test code to sim code *)
  let s :=
    if multipleRegimes then
      let '(sim, first) :=
        if firstRegime s then (simCode s, false)
        else (simCode s << Text "else ", firstRegime s) in
      let '(regimeID, ids) := map_index (regimeIDs s) regimeName in
      mk_loop ids
        (sim << Text "if(_regimeID == " <<# regimeID << Text ")" << OB 1)
        (thresholdCondition s) first
    else s in
  (* Loop through conditions by which neuron might leave regime *)
  s ← for_each (condition_body multipleRegimes regimeName)
               (kids_named regime "OnCondition") s;
  (* Write dynamics *)
  let timeDerivative := child (Some regime) "TimeDerivative" in
  let sim :=
    if is_null timeDerivative then simCode s
    else simCode s << Text (attribute_value timeDerivative "variable")
                   << Text " += DT * ("
                   << Text (child_value timeDerivative "MathInline")
                   << Text ");" << ENDL in
  (* End of regime *)
  let sim := if multipleRegimes then sim << CB 1 else sim in
  Ok (mk_loop (regimeIDs s) sim (thresholdCondition s) (firstRegime s)).

(** The constructor.  [file] is what loading [url] gives.  Console output
    is left out; the [regimeIDs[regimeName]] it prints finds the name of
    the regime in the table. *)
Definition new (url : string) (file : load_result)
    (variableParams : gset string) : result t :=
  match file with
  | LoadError description =>
      Err (cannot_open url description)
  | Loaded doc =>
      (* Get SpineML root *)
      let spineML := child (Some doc) "SpineML" in
      if is_null spineML then
        Err (no_root url)
      else
      (* Get component class *)
      let componentClass := child spineML "ComponentClass" in
      if is_null componentClass
         || negb (String.eqb (attribute_value componentClass "type")
                             "neuron_body")
      then
        Err (wrong_component url)
      else
      (* Build mapping from regime names to IDs *)
      let dynamics := child componentClass "Dynamics" in
      let ids := build_regimeIDs (children dynamics "Regime") in
      let multipleRegimes := bool_decide (1 < size ids)%nat in
      (* Parameters and variables: the statements of the constructor are
         those of [findModelVariables] *)
      let '(paramNames, vars) :=
        findModelVariables componentClass variableParams multipleRegimes in
      (* Loop through regimes *)
      s ← for_each (regime_body multipleRegimes)
                   (children dynamics "Regime") (mk_loop ids [] "" true);
      (* Store generated code in class *)
      Ok (mk paramNames vars (simCode s) (thresholdCondition s))
  end.

(** *** [SpineMLNeuronModel::ParamValues] *)
Module ParamValues.

Record t : Type := mk { m_Values : gmap string double }.

(** "Transform values of value map into vector and return" *)
Definition getValues (pv : t) : list double :=
  (λ v : string * double, v.2) <$> map_iter (m_Values pv).

End ParamValues.

End SpineMLNeuronModel.

(** ** Reference definitions for the statements below *)

(** The distinct names of a list, in the order of their first occurrence. *)
Fixpoint first_seen (names : list string) : list string :=
  match names with
  | [] => []
  | n :: rest => n :: filter (λ x, x ≠ n) (first_seen rest)
  end.

(** The names of the Regime nodes of a component, in document order. *)
Definition regime_names (regimes : list xml_tree) : list string :=
  (λ r, attr r "name") <$> regimes.

(** The ID a name has in a table, as [operator[]] reads it: zero for a
    name the table does not hold. *)
Definition regime_id (ids : gmap string N) (name : string) : N :=
  default 0 (ids !! name).

(** The handler calls for the nodes of one kind under a regime. *)
Definition transition_calls (h : handler) (ids : gmap string N) (cur : N)
    (nodes : list xml_tree) : list call :=
  (λ n, OnObject h n cur (regime_id ids (attr n "target_regime"))) <$> nodes.

Definition derivative_calls (cur : N) (nodes : list xml_tree) : list call :=
  (λ n, OnObject hTimeDerivative n cur 0) <$> nodes.

(** The handler calls of one regime, before its regime-end call. *)
Definition object_calls (ids : gmap string N) (regime : xml_tree)
    : list call :=
  let cur := regime_id ids (attr regime "name") in
  transition_calls hCondition ids cur (kids_named regime "OnCondition") ++
  transition_calls hEvent ids cur (kids_named regime "OnEvent") ++
  transition_calls hImpulse ids cur (kids_named regime "OnImpulse") ++
  derivative_calls cur (kids_named regime "TimeDerivative").

Definition regime_calls (ids : gmap string N) (multipleRegimes : bool)
    (regime : xml_tree) : list call :=
  object_calls ids regime ++
  [RegimeEnd multipleRegimes (regime_id ids (attr regime "name"))].

(** The Regime nodes of a component and what is derived from them. *)
Definition regimes_of (componentClass : xml_node) : list xml_tree :=
  children (child componentClass "Dynamics") "Regime".

Definition has_multiple_regimes (componentClass : xml_node) : bool :=
  bool_decide (1 < size (build_regimeIDs (regimes_of componentClass)))%nat.

(** All calls for a component, regime after regime in document order. *)
Definition model_calls (componentClass : xml_node) : list call :=
  let ids := build_regimeIDs (regimes_of componentClass) in
  mjoin (regime_calls ids (has_multiple_regimes componentClass)
           <$> regimes_of componentClass).

(** [table_of m s]: the map [m] numbers the names of [s] by position. *)
Definition table_of (m : gmap string N) (s : list string) : Prop :=
  size m = length s ∧
  ∀ name i, m !! name = Some i ↔ s !! N.to_nat i = Some name.

(** [agree ids r1 r2]: the traversal, with its table, and the calls, without
    one, came to the same end; the table left over reads every name as
    [ids] does. *)
Definition agree {St} (ids : gmap string N)
    (r1 : result (gmap string N * St)) (r2 : result St) : Prop :=
  match r1, r2 with
  | Ok (m, st), Ok st' => (∀ k, regime_id m k = regime_id ids k) ∧ st = st'
  | Err e, Err e' => e = e'
  | _, _ => False
  end.

(** Handlers driven by a list of calls. *)
Section replay.

Context {St : Type}.
Variables objectHandlerEvent objectHandlerCondition objectHandlerImpulse
          objectHandlerTimeDerivative : xml_tree → N → N → St → result St.
Variable regimeEndFunc : bool → N → St → result St.

Definition dispatch (c : call) : St → result St :=
  match c with
  | OnObject hEvent n cur tgt => objectHandlerEvent n cur tgt
  | OnObject hCondition n cur tgt => objectHandlerCondition n cur tgt
  | OnObject hImpulse n cur tgt => objectHandlerImpulse n cur tgt
  | OnObject hTimeDerivative n cur tgt => objectHandlerTimeDerivative n cur tgt
  | RegimeEnd multipleRegimes cur => regimeEndFunc multipleRegimes cur
  end.

Definition replay : list call → St → result St := for_each dispatch.

End replay.

(** ** Regime guards, as the specification words them

    A block is the ID of a regime and the text its handlers wrote.  Blocks
    without text are left out; with several regimes each remaining block is
    guarded, the first by [if] and the later ones by [else if]; with a
    single regime the text is passed on as it is. *)
Definition guarded (first : bool) (id : N) (body : string) : code :=
  (if first then [] else [Text "else "]) ++
  [Text "if(_regimeID == "; Text (pretty id); Text ")"; OB 1;
   Text body; CB 1].

Fixpoint assemble (multipleRegimes first : bool) (blocks : list (N * string))
    : code :=
  match blocks with
  | [] => []
  | (id, body) :: rest =>
      if decide (body = "") then assemble multipleRegimes first rest
      else if multipleRegimes
      then guarded first id body ++ assemble multipleRegimes false rest
      else Text body :: assemble multipleRegimes first rest
  end.

(** Handlers that write text, chosen by [emit], into the buffer of the
    current regime of a [CodeStream], and the regime-end callback that
    forwards to [onRegimeEnd]. *)
Section code_stream_handlers.

Variable emit : handler → xml_tree → N → N → string.

Definition emit_handler (h : handler) (node : xml_tree) (cur tgt : N)
    (cs : CodeStream.t) : result CodeStream.t :=
  Ok (CodeStream.write (emit h node cur tgt) cs).

Definition regime_end (multipleRegimes : bool) (cur : N) (cs : CodeStream.t)
    : result CodeStream.t :=
  Ok (CodeStream.onRegimeEnd multipleRegimes cur cs).

Definition generateModelCode_text (componentClass : xml_node)
    : result (bool * CodeStream.t) :=
  generateModelCode (emit_handler hEvent) (emit_handler hCondition)
    (emit_handler hImpulse) (emit_handler hTimeDerivative) regime_end
    componentClass CodeStream.init.

Definition call_text (c : call) : string :=
  match c with
  | OnObject h node cur tgt => emit h node cur tgt
  | RegimeEnd _ _ => ""
  end.

(** The block of a regime: its ID and the texts of its handler calls. *)
Definition regime_block (ids : gmap string N) (regime : xml_tree)
    : N * string :=
  (regime_id ids (attr regime "name"),
   foldr String.append "" (call_text <$> object_calls ids regime)).

End code_stream_handlers.

(** ** Auxiliary notions for token substitution *)

(** The text behind its first [k] characters. *)
Fixpoint drop_chars (k : nat) (s : string) : string :=
  match k, s with
  | S k', String _ s' => drop_chars k' s'
  | S _, EmptyString => EmptyString
  | O, _ => s
  end.

(** A wrapped occurrence, [(NAME)], somewhere in a text. *)
Definition has_wrapped (name s : string) : Prop :=
  ∃ pre post, s = pre +:+ "(" +:+ name +:+ ")" +:+ post.

(** ** Declared names of a component *)

Definition parameter_names (componentClass : xml_node) : list string :=
  (λ param, attr param "name") <$> children componentClass "Parameter".

Definition state_variable_names (componentClass : xml_node) : list string :=
  (λ n, attr n "name")
    <$> children (child componentClass "Dynamics") "StateVariable".

(** ** Notions for the neuron-model constructor *)

(** The condition has a Trigger with a MathInline. *)
Definition has_trigger (condition : xml_tree) : Prop :=
  is_null (child (child (Some condition) "Trigger") "MathInline") = false.

(** ** Sample documents *)

Definition mk_regime (name : string) (kids : list xml_tree) : xml_tree :=
  Element "Regime" [("name", name)] "" kids.

Definition mk_trigger (expr : string) : xml_tree :=
  Element "Trigger" [] "" [Element "MathInline" [] expr []].

Definition mk_condition (target : string) (kids : list xml_tree) : xml_tree :=
  Element "OnCondition" [("target_regime", target)] "" kids.

Definition mk_derivative (variable expr : string) : xml_tree :=
  Element "TimeDerivative" [("variable", variable)] ""
          [Element "MathInline" [] expr []].

Definition mk_named (tag name : string) : xml_tree :=
  Element tag [("name", name)] "" [].

Definition mk_component (kids : list xml_tree) : xml_tree :=
  Element "ComponentClass" [("name", "sample"); ("type", "neuron_body")] ""
          kids.

(** The document node of a file whose root element is SpineML. *)
Definition mk_document (componentClass : xml_tree) : xml_tree :=
  Element "" [] "" [Element "SpineML" [] "" [componentClass]].

(** Regimes A and B; the condition of A targets "Ghost", which is no
    regime; each regime has a time derivative. *)
Definition ghost_component : xml_tree :=
  mk_component
    [mk_named "Parameter" "tau";
     Element "Dynamics" [] ""
       [mk_regime "A" [mk_condition "Ghost" [mk_trigger "V > 1"];
                       mk_derivative "V" "-V / tau"];
        mk_regime "B" [mk_derivative "V" "1 / tau"];
        mk_named "StateVariable" "V"]].

(** Regimes A and B, and a Parameter that bears the name of the
    regime-ID variable. *)
Definition regimeID_component : xml_tree :=
  mk_component
    [mk_named "Parameter" "tau"; mk_named "Parameter" "_regimeID";
     Element "Dynamics" [] ""
       [mk_regime "A" []; mk_regime "B" []; mk_named "StateVariable" "V"]].

(** The values 1.0, 2.0 and 2.5. *)
Definition double_1 : double := S754_finite false 4503599627370496 (-52).
Definition double_2 : double := S754_finite false 4503599627370496 (-51).
Definition double_2_5 : double := S754_finite false 5629499534213120 (-51).

(** A model that declares the parameters a, b and c. *)
Definition abc_model : Model :=
  {| getParamNames := ["a"; "b"; "c"];
     getVars := [("a", "scalar"); ("b", "scalar"); ("c", "scalar")] |}.

(** A model that declares the parameters b and a, in this order. *)
Definition ba_model : Model :=
  {| getParamNames := ["b"; "a"];
     getVars := [("b", "scalar"); ("a", "scalar")] |}.

(** A component without Dynamics. *)
Definition no_dynamics_component : xml_tree :=
  mk_component [mk_named "Parameter" "tau"].

(** One regime, A, whose condition targets B. *)
Definition off_target_condition : xml_tree :=
  mk_condition "B" [mk_trigger "V > 1"].

Definition off_target_regime : xml_tree :=
  mk_regime "A" [off_target_condition].

Definition off_target_component : xml_tree :=
  mk_component [Element "Dynamics" [] "" [off_target_regime]].

(** The same with a condition that has no Trigger. *)
Definition untriggered_component : xml_tree :=
  mk_component
    [Element "Dynamics" [] "" [mk_regime "A" [mk_condition "B" []]]].
(** ** [std::string::find]

    [find hay needle] is [hay.find(needle)]: the position of the first
    occurrence, [None] for [npos]. *)
Fixpoint find (hay needle : string) : option nat :=
  if String.prefix needle hay then Some 0%nat
  else match hay with
       | EmptyString => None
       | String _ hay' => S <$> find hay' needle
       end.

(** [hay.find(needle) != std::string::npos] *)
Definition contains (hay needle : string) : bool :=
  bool_decide (is_Some (find hay needle)).

(** ** [substituteModelVariables] and [processModelVariables]

    The code strings are handed over as pointers.  The memory they point
    into is a list of strings and a pointer is a position in it; a pointer
    may occur more than once among the code strings.  Dereferencing a
    pointer outside the memory is undefined in the source and does nothing
    here. *)
Definition wrap_in_place (name : string) (c : nat) (mem : list string)
    : list string :=
  alter (λ code, wrapVariableNames code name) c mem.

(** The inner loop: every code string is wrapped for [name], in the
    order of the pointers. *)
Definition wrap_each (name : string) (codeStrings : list nat)
    (mem : list string) : list string :=
  foldl (λ mem c, wrap_in_place name c mem) mem codeStrings.

Definition substituteModelVariables (paramNames : list string)
    (vars : list (string * string)) (codeStrings : list nat)
    (mem : list string) : list string :=
  (* Loop through model parameters *)
  let mem := foldl (λ mem p, wrap_each p codeStrings mem) mem paramNames in
  (* Loop through model variables *)
  foldl (λ mem v, wrap_each v.1 codeStrings mem) mem vars.

(** The overload with analogue receive ports. *)
Definition substituteModelVariables_ports (paramNames : list string)
    (vars : list (string * string)) (analogueReceivePortNames : list string)
    (codeStrings : list nat) (mem : list string) : list string :=
  (* Substitute parameters and variables *)
  let mem := substituteModelVariables paramNames vars codeStrings mem in
  foldl (λ mem p, wrap_each p codeStrings mem) mem analogueReceivePortNames.

Definition processModelVariables (componentClass : xml_node)
    (variableParams : gset string) (multipleRegimes : bool)
    (codeStrings : list nat) (mem : list string)
    : (list string * list (string * string)) * list string :=
  (* Find variables *)
  let paramNamesVars :=
    findModelVariables componentClass variableParams multipleRegimes in
  (* Use them to perform substitutions *)
  (paramNamesVars,
   substituteModelVariables paramNamesVars.1 paramNamesVars.2 codeStrings mem).

(** One code text wrapped for each name of a list in turn, [times] times
    per name. *)
Definition wrap_names (times : nat) (names : list string) (code : string)
    : string :=
  foldl (λ code name,
           Nat.iter times (λ code, wrapVariableNames code name) code)
        code names.

(** How often a pointer occurs among the code strings. *)
Definition occurrences (c : nat) (codeStrings : list nat) : nat :=
  length (filter (λ c', c' = c) codeStrings).

(** ** Braces of a code stream

    [OB(n)] opens a brace of level [n] and [CB(n)] closes the innermost
    open brace, which must be of level [n].  [brace_stack open c] gives the
    levels left open behind [c], innermost first, when [c] starts with the
    levels [open] open; [None] when a [CB] finds no brace of its level. *)
Fixpoint brace_stack (open : list N) (c : code) : option (list N) :=
  match c with
  | [] => Some open
  | OB n :: c' => brace_stack (n :: open) c'
  | CB n :: c' =>
      match open with
      | m :: open' => if n =? m then brace_stack open' c' else None
      | [] => None
      end
  | Text _ :: c' | ENDL :: c' => brace_stack open c'
  end.

Definition balanced (c : code) : Prop := brace_stack [] c = Some [].

(** A piece of code that leaves the open braces as it found them. *)
Definition neutral (c : code) : Prop := ∀ open, brace_stack open c = Some open.

(** A computation that does not throw. *)
Definition is_Ok {A} (r : result A) : Prop := ∃ a, r = Ok a.

Definition is_regime_end (c : call) : bool :=
  match c with
  | RegimeEnd _ _ => true
  | OnObject _ _ _ _ => false
  end.

(** One regime, A, whose condition targets A, resets V and sends a
    spike. *)
Definition spiking_component : xml_tree :=
  mk_component
    [mk_named "Parameter" "tau";
     Element "Dynamics" [] ""
       [mk_regime "A"
          [mk_condition "A"
             [mk_trigger "V > 1";
              Element "StateAssignment" [("variable", "V")] ""
                      [Element "MathInline" [] "0" []];
              Element "EventOut" [("port", "spike")] "" []];
           mk_derivative "V" "-V / tau"];
        mk_named "StateVariable" "V"]].

(** The model the constructor builds from it. *)
Definition spiking_model : SpineMLNeuronModel.t :=
  SpineMLNeuronModel.mk ["tau"] [("V", "scalar")]
    [Text "if("; Text "V > 1"; Text ")"; OB 2;
     Text "V"; Text " = "; Text "0"; Text ";"; ENDL; CB 2;
     Text "V"; Text " += DT * ("; Text "-V / tau"; Text ");"; ENDL]
    "(_regimeID == 0 && (V > 1))".

(** ** The helper functions of the generator's entry point

    [filesystem::path] and the [Connectors] are declared outside these
    sources: joining a name to the base path, the conversion of an
    attribute to a [double], and the functions of the four connectors are
    arguments.  The [Connectors] may throw. *)

(** "uniquely identifying model parameters": the url of the model and the
    names of its variable parameters. *)
Definition ModelParams : Type := string * gset string.

(** [m.insert({k, v})] on a [std::map]: an existing key keeps its value. *)
Definition insert_new `{Countable K} {V} (m : gmap K V) (k : K) (v : V)
    : gmap K V :=
  match m !! k with
  | Some _ => m
  | None => <[k := v]> m
  end.

(** The order in which the three arguments of [std::make_tuple] are
    evaluated is left open by the language; the first argument that throws
    in that order ends the call. *)
Inductive evaluation_order : Type :=
  | Order123 | Order132 | Order213 | Order231 | Order312 | Order321.

Definition make_tuple {A B C} (order : evaluation_order)
    (a : result A) (b : result B) (c : result C) : result (A * B * C) :=
  match order with
  | Order123 => x ← a; y ← b; z ← c; Ok (x, y, z)
  | Order132 => x ← a; z ← c; y ← b; Ok (x, y, z)
  | Order213 => y ← b; x ← a; z ← c; Ok (x, y, z)
  | Order231 => y ← b; z ← c; x ← a; Ok (x, y, z)
  | Order312 => z ← c; x ← a; y ← b; Ok (x, y, z)
  | Order321 => z ← c; y ← b; x ← a; Ok (x, y, z)
  end.

Section generator.

(** [(basePath / name).str()] for the base path of the call. *)
Variable path_str : string → string.
(** The conversion of the text of an attribute to a [double]. *)
Variable as_double : string → double.
(** [(unsigned int)std::round(delay / dt)] *)
Variable round_steps : double → double → N.

(** [h.attribute(a).as_double()]: zero when the handle is null or the
    attribute is missing. *)
Definition attribute_as_double (h : xml_node) (a : string) : double :=
  match h with
  | Some (Element _ attrs _ _) =>
      from_option as_double double_zero (first_attribute attrs a)
  | None => double_zero
  end.

Definition readModelProperties (node : xml_node)
    : ModelParams * gmap string double :=
  (* Build uniquely identifying model parameters starting with its 'url' *)
  let url := path_str (attribute_value node "url") in
  foldl (λ '(modelParams, fixedParamVals) param,
           let paramName := attr param "name" in
           let fixedValue := child (Some param) "FixedValue" in
           if negb (is_null fixedValue) then
             (modelParams,
              insert_new fixedParamVals paramName
                         (attribute_as_double fixedValue "value"))
           else
             ((modelParams.1, {[paramName]} ∪ modelParams.2),
              fixedParamVals))
        ((url, ∅) : ModelParams, ∅) (children node "Property").

(** The Property children that bear a name and have a FixedValue. *)
Definition fixed_properties (node : xml_node) (name : string)
    : list xml_tree :=
  filter (λ p, attr p "name" = name ∧
               is_null (child (Some p) "FixedValue") = false)
         (children node "Property").

(** The messages of the exceptions. *)
Definition single_delay_only : string :=
  "GeNN currently only supports projections with a single delay value".
Definition no_delay_node : string := "Connector has no 'Delay' node".
Definition no_connection_type : string :=
  "No supported connection type found for projection".

Definition readDelaySteps (node : xml_node) (dt : double) : result N :=
  (* Get delay node *)
  let delay := child node "Delay" in
  if negb (is_null delay) then
    let fixedValue := child delay "FixedValue" in
    if negb (is_null fixedValue) then
      let delay := attribute_as_double fixedValue "value" in
      Ok (round_steps delay dt)
    else Err single_delay_only
  else Err no_delay_node.

Context {SynapseMatrixType : Type}.
Variables OneToOne_getMatrixType AllToAll_getMatrixType
          FixedProbability_getMatrixType List_getMatrixType
          : xml_node → N → N → bool → result SynapseMatrixType.
Variables OneToOne_estimateMaxRowLength AllToAll_estimateMaxRowLength
          FixedProbability_estimateMaxRowLength
          : xml_node → N → N → result N.
(** [Connectors::List::estimateMaxRowLength(basePath, ...)] for the base
    path of the call. *)
Variable List_estimateMaxRowLength : xml_node → N → N → result N.
Variable order : evaluation_order.

Definition getSynapticMatrixType (node : xml_node) (numPre numPost : N)
    (globalG : bool) (dt : double) : result (SynapseMatrixType * N * N) :=
  let oneToOne := child node "OneToOneConnection" in
  if negb (is_null oneToOne) then
    make_tuple order
      (OneToOne_getMatrixType oneToOne numPre numPost globalG)
      (readDelaySteps oneToOne dt)
      (OneToOne_estimateMaxRowLength oneToOne numPre numPost)
  else
  let allToAll := child node "AllToAllConnection" in
  if negb (is_null allToAll) then
    make_tuple order
      (AllToAll_getMatrixType allToAll numPre numPost globalG)
      (readDelaySteps allToAll dt)
      (AllToAll_estimateMaxRowLength allToAll numPre numPost)
  else
  let fixedProbability := child node "FixedProbabilityConnection" in
  if negb (is_null fixedProbability) then
    make_tuple order
      (FixedProbability_getMatrixType fixedProbability numPre numPost globalG)
      (readDelaySteps fixedProbability dt)
      (FixedProbability_estimateMaxRowLength fixedProbability numPre numPost)
  else
  let connectionList := child node "ConnectionList" in
  if negb (is_null connectionList) then
    (* the three calls are handed [fixedProbability] *)
    make_tuple order
      (List_getMatrixType fixedProbability numPre numPost globalG)
      (readDelaySteps fixedProbability dt)
      (List_estimateMaxRowLength fixedProbability numPre numPost)
  else Err no_connection_type.

End generator.

(** [getCreateModel<T>]: [construct] is the constructor [T(url, names)],
    which may throw.  The reference that is returned is given as the model
    it refers to, beside the map as the call leaves it. *)
Section getCreateModel.

Context {T : Type}.
Variable construct : string → gset string → result T.

Definition getCreateModel (params : ModelParams) (models : gmap ModelParams T)
    : result (T * gmap ModelParams T) :=
  (* If no existing model is found that matches parameters *)
  match models !! params with
  | None =>
      (* Create new model *)
      newModel ← construct params.1 params.2;
      Ok (newModel, insert_new models params newModel)
  | Some existingModel => Ok (existingModel, models)
  end.

End getCreateModel.

(** A synapse with an all-to-all connector that has a fixed delay, and a
    synapse whose connector is a list of connections. *)
Definition fixed_delay : xml_tree :=
  Element "Delay" [] "" [Element "FixedValue" [("value", "1")] "" []].

Definition all_to_all_synapse : xml_tree :=
  Element "Synapse" [] "" [Element "AllToAllConnection" [] "" [fixed_delay]].

Definition connection_list_synapse : xml_tree :=
  Element "Synapse" [] "" [Element "ConnectionList" [] "" [fixed_delay]].

(** ** [NeuronGroup]

    The class and the neuron model it refers to are declared outside these
    sources.  Kept here: the name of the group, what the functions below
    ask of its neuron model, and the members they read or write.
    [getNumDelaySlots()] answers the member [m_NumDelaySlots]; [gennError]
    ends the call with its message. *)
Module NeuronGroup.

Record NeuronModel : Type := mk_model {
  GetVars : list (string * string);
  GetExtraGlobalParams : list (string * string);
  GetSimCode : string;
  GetThresholdConditionCode : string;
  GetResetCode : string
}.

Record t : Type := mk {
  getName : string;
  getNeuronModel : NeuronModel;
  m_NumDelaySlots : N;
  m_VarQueueRequired : gset string;
  m_VarZeroCopyEnabled : gset string
}.

Definition getNumDelaySlots (g : t) : N := m_NumDelaySlots g.

Definition checkNumDelaySlots (requiredDelay : N) (g : t) : t :=
  if getNumDelaySlots g <=? requiredDelay then
    mk (getName g) (getNeuronModel g) (to_unsigned (requiredDelay + 1))
       (m_VarQueueRequired g) (m_VarZeroCopyEnabled g)
  else g.

Definition updateVarQueues (code : string) (g : t) : t :=
  (* Loop through neuron variables *)
  foldl (λ g v,
           (* If the code contains a reference to this variable, set
              queued flag *)
           if contains code (v.1 +:+ "_pre") then
             mk (getName g) (getNeuronModel g) (m_NumDelaySlots g)
                ({[v.1]} ∪ m_VarQueueRequired g) (m_VarZeroCopyEnabled g)
           else g)
        g (GetVars (getNeuronModel g)).

Definition setVarZeroCopyEnabled (var : string) (enabled : bool) (g : t)
    : result t :=
  (* If named variable doesn't exist give error *)
  if bool_decide (var ∈ (GetVars (getNeuronModel g)).*1) then
    (* If enabled, add variable to set; otherwise, remove it *)
    Ok (mk (getName g) (getNeuronModel g) (m_NumDelaySlots g)
           (m_VarQueueRequired g)
           (if enabled then {[var]} ∪ m_VarZeroCopyEnabled g
            else m_VarZeroCopyEnabled g ∖ {[var]}))
  else Err ("Cannot find variable " +:+ var).

Definition isVarQueueRequired (var : string) (g : t) : bool :=
  bool_decide (var ∈ m_VarQueueRequired g).

Definition isVarZeroCopyEnabled (var : string) (g : t) : bool :=
  bool_decide (var ∈ m_VarZeroCopyEnabled g).

(** The parameter is used by the code of the neuron model. *)
Definition used (g : t) (p : string) : bool :=
  contains (GetSimCode (getNeuronModel g)) ("$(" +:+ p +:+ ")")
  || contains (GetThresholdConditionCode (getNeuronModel g))
              ("$(" +:+ p +:+ ")")
  || contains (GetResetCode (getNeuronModel g)) ("$(" +:+ p +:+ ")").

Definition addExtraGlobalParams (kernelParameters : gmap string string)
    (g : t) : gmap string string :=
  foldl (λ kernelParameters p,
           let pnamefull := p.1 +:+ getName g in
           match kernelParameters !! pnamefull with
           | None =>
               (* parameter wasn't registered yet - is it used? *)
               if used g p.1
               then insert_new kernelParameters pnamefull p.2
               else kernelParameters
           | Some _ => kernelParameters
           end)
        kernelParameters (GetExtraGlobalParams (getNeuronModel g)).

End NeuronGroup.

(** A group named _pop whose model has the variables V and U and the
    extra global parameter k, used by the simulation code. *)
Definition sample_group : NeuronGroup.t :=
  NeuronGroup.mk "_pop"
    (NeuronGroup.mk_model [("V", "scalar"); ("U", "scalar")]
       [("k", "float")] "$(V) += $(k);" "$(V) > 1" "")
    1 ∅ ∅.

(** ** Replacements the format copies as they are

    [std::regex_replace] reads a dollar sign in the format as the start of
    a reference to the match; a replacement name without one is copied
    into the format as it is. *)
Definition dollar_free (s : string) : bool :=
  all_chars (λ c, negb (Ascii.eqb c "$")) s.

(** ** Regime guards of a code

    Both regime loops open the block of a guarded regime with [OB(1)]; the
    blocks of conditions are opened with [OB(2)]. *)
Definition is_guard (i : item) : bool :=
  match i with
  | OB level => level =? 1
  | _ => false
  end.

Definition guards (c : list item) : nat :=
  length (filter (λ i, is_guard i = true) c).

(** ** Braces inside text

    The text a handler writes may hold braces of its own.  How a character
    acts on the open braces is given by [char_braces]; [text_stack] runs it
    over a text and [code_stack] over a code, where [OB(n)] and [CB(n)] act
    as in [brace_stack]. *)
Section text_braces.

Variable char_braces : ascii → list N → option (list N).

Fixpoint text_stack (open : list N) (s : string) : option (list N) :=
  match s with
  | EmptyString => Some open
  | String c s' => open' ← char_braces c open; text_stack open' s'
  end.

Fixpoint code_stack (open : list N) (c : code) : option (list N) :=
  match c with
  | [] => Some open
  | OB n :: c' => code_stack (n :: open) c'
  | CB n :: c' =>
      match open with
      | m :: open' => if n =? m then code_stack open' c' else None
      | [] => None
      end
  | Text s :: c' => open' ← text_stack open s; code_stack open' c'
  | ENDL :: c' => code_stack open c'
  end.

(** Every brace of the code, written by a manipulator or inside a text,
    is closed in its turn. *)
Definition balanced_code (c : code) : Prop := code_stack [] c = Some [].

(** A text, or a code, that leaves the open braces as it found them. *)
Definition neutral_text (s : string) : Prop :=
  ∀ open, text_stack open s = Some open.

Definition neutral_code (c : code) : Prop :=
  ∀ open, code_stack open c = Some open.

(** No character but the two curly braces acts on the open braces. *)
Definition only_curly : Prop :=
  ∀ c open, c ≠ "{"%char → c ≠ "}"%char → char_braces c open = Some open.

End text_braces.

Definition is_curly (c : ascii) : bool :=
  Ascii.eqb c "{" || Ascii.eqb c "}".

(** A reading of the braces of a text: an opening curly brace opens a
    brace of level 0 and a closing one closes it. *)
Definition curly_braces (c : ascii) (open : list N) : option (list N) :=
  if Ascii.eqb c "{" then Some (0 :: open)
  else if Ascii.eqb c "}" then
    match open with
    | 0 :: open' => Some open'
    | _ => None
    end
  else Some open.

(** Regimes A and B; A has a time derivative and B has nothing. *)
Definition only_A_component : xml_tree :=
  mk_component
    [mk_named "Parameter" "tau";
     Element "Dynamics" [] ""
       [mk_regime "A" [mk_derivative "V" "-V / tau"];
        mk_regime "B" [];
        mk_named "StateVariable" "V"]].

(** Handlers that write the variable of a time derivative, inside braces,
    and nothing for the other objects. *)
Definition emit_derivative (h : handler) (node : xml_tree) (cur tgt : N)
    : string :=
  match h with
  | hTimeDerivative => "{ d" +:+ attr node "variable" +:+ "; }"
  | _ => ""
  end.

(* ===================================================================== *)
(** * Properties *)
(* ===================================================================== *)

(** ** The regime-ID table *)

Lemma first_seen_elem (names : list string) x :
  x ∈ first_seen names ↔ x ∈ names.
Proof.
  induction names as [|n rest IH]; simpl; [done|].
  rewrite !elem_of_cons, list_elem_of_filter, IH.
  destruct (decide (x = n)); tauto.
Qed.

Lemma first_seen_NoDup (names : list string) : NoDup (first_seen names).
Proof.
  induction names as [|n rest IH]; simpl; [constructor|].
  constructor; [|by apply NoDup_filter].
  rewrite list_elem_of_filter. tauto.
Qed.

Lemma filter_ne_absent (n : string) (l : list string) :
  n ∉ l → filter (λ x, x ≠ n) l = l.
Proof.
  induction l as [|y l IH]; intros Hn; [done|].
  apply not_elem_of_cons in Hn as [? ?].
  rewrite filter_cons_True by congruence. f_equal. auto.
Qed.

Lemma first_seen_id (names : list string) :
  NoDup names → first_seen names = names.
Proof.
  induction 1 as [|n rest Hn _ IH]; simpl; [done|].
  rewrite IH. f_equal. by apply filter_ne_absent.
Qed.

Lemma table_of_elem m s name :
  table_of m s → name ∈ s ↔ is_Some (m !! name).
Proof.
  intros [_ H]. rewrite list_elem_of_lookup. split.
  - intros [i Hi]. exists (N.of_nat i). apply H. by rewrite Nat2N.id.
  - intros [i Hi]. exists (N.to_nat i). by apply H.
Qed.

Lemma to_unsigned_small (n : N) : n < 2 ^ 32 → to_unsigned n = n.
Proof. intros Hn. unfold to_unsigned. by apply N.mod_small. Qed.

Lemma table_of_insert_new m s name :
  table_of m s → N.of_nat (length s) < 2 ^ 32 → name ∉ s →
  table_of (map_insert m name (to_unsigned (N.of_nat (size m)))) (s ++ [name]).
Proof.
  intros Ht Hlen Hnew. pose proof Ht as [Hsize Hiff].
  assert (m !! name = None) as Hnone.
  { apply eq_None_not_Some. by rewrite <- (table_of_elem m s). }
  unfold map_insert. rewrite Hnone, Hsize, to_unsigned_small by done.
  split.
  - rewrite map_size_insert_None, length_app by done. simpl. lia.
  - intros x i. destruct (decide (x = name)) as [->|Hne].
    + rewrite lookup_insert_eq. split.
      * intros [= <-]. rewrite Nat2N.id. by apply list_lookup_middle.
      * intros Hi. apply lookup_snoc_Some in Hi as [[Hlt Hx]|[Heq _]].
        -- apply list_elem_of_lookup_2 in Hx. done.
        -- f_equal. lia.
    + rewrite lookup_insert_ne by done. rewrite Hiff, lookup_snoc_Some.
      split; [intros Hx; left; eauto using lookup_lt_Some|].
      intros [[_ ?]|[_ ?]]; [done|congruence].
Qed.

Lemma table_of_insert_old m s name v :
  table_of m s → name ∈ s → map_insert m name v = m.
Proof.
  intros Ht Hin. apply (table_of_elem m s) in Hin as [i Hi]; [|done].
  unfold map_insert. by rewrite Hi.
Qed.

Lemma build_regimeIDs_from (regimes : list xml_tree) m s :
  table_of m s → N.of_nat (length s + length regimes) < 2 ^ 32 →
  table_of
    (foldl (λ m n, map_insert m (attr n "name") (to_unsigned (N.of_nat (size m))))
           m regimes)
    (s ++ filter (λ x, x ∉ s) (first_seen (regime_names regimes))).
Proof.
  revert m s. induction regimes as [|r regimes IH]; intros m s Ht Hlen.
  - simpl. by rewrite app_nil_r.
  - simpl in *. destruct (decide (attr r "name" ∈ s)) as [Hin|Hnew].
    + rewrite (table_of_insert_old m s) by done.
      rewrite filter_cons_False by tauto.
      rewrite list_filter_filter.
      erewrite list_filter_iff; [apply IH; [done|lia]|].
      intros x. simpl. split; [tauto|]. intros Hx. split; [done|].
      intros ->. done.
    + rewrite filter_cons_True by done.
      rewrite list_filter_filter, cons_middle, app_assoc.
      erewrite list_filter_iff;
        [apply IH; [apply table_of_insert_new; [done|lia|done]|]|].
      * rewrite length_app. simpl. lia.
      * intros x. simpl. rewrite not_elem_of_app, list_elem_of_singleton.
        tauto.
Qed.

Lemma filter_not_elem_of_nil (l : list string) :
  filter (λ x, x ∉ @nil string) l = l.
Proof.
  induction l as [|y l IH]; [done|].
  rewrite filter_cons_True by apply not_elem_of_nil. by f_equal.
Qed.

Lemma build_regimeIDs_table (regimes : list xml_tree) :
  N.of_nat (length regimes) < 2 ^ 32 →
  table_of (build_regimeIDs regimes) (first_seen (regime_names regimes)).
Proof.
  intros Hlen. unfold build_regimeIDs.
  rewrite <- (filter_not_elem_of_nil (first_seen _)).
  apply (build_regimeIDs_from regimes ∅ []); [|done].
  split; [done|]. intros name i. by rewrite lookup_empty, lookup_nil.
Qed.

(** C7. The regime-ID table is a bijection between the distinct regime
    names and the IDs [0 .. n-1], and a name's ID is its position among
    the distinct names in first-seen document order. *)
Theorem regimeIDs_dense_bijection_in_document_order (regimes : list xml_tree) :
  N.of_nat (length regimes) < 2 ^ 32 →
  let ids := build_regimeIDs regimes in
  let order := first_seen (regime_names regimes) in
  (∀ name i, ids !! name = Some i ↔ order !! N.to_nat i = Some name) ∧
  size ids = length order ∧
  (∀ a b i, ids !! a = Some i → ids !! b = Some i → a = b) ∧
  (∀ i, (N.to_nat i < size ids)%nat ↔ ∃ name, ids !! name = Some i) ∧
  (∀ name, is_Some (ids !! name) ↔ name ∈ regime_names regimes).
Proof.
  intros Hlen ids order.
  destruct (build_regimeIDs_table regimes Hlen) as [Hsize Hiff].
  fold ids order in Hsize, Hiff.
  split; [done|]. split; [done|]. split; [|split].
  - intros a b i Ha Hb. apply Hiff in Ha, Hb. congruence.
  - intros i. rewrite Hsize. split.
    + intros Hi. apply lookup_lt_is_Some_2 in Hi as [name Hname].
      exists name. by apply Hiff.
    + intros [name Hname]. apply Hiff in Hname. eauto using lookup_lt_Some.
  - intros name. rewrite <- first_seen_elem.
    symmetry. apply table_of_elem. split; done.
Qed.

(** With distinct regime names, the ID of a regime is its position in the
    document. *)
Lemma regimeIDs_of_distinct_names (regimes : list xml_tree) name i :
  N.of_nat (length regimes) < 2 ^ 32 →
  NoDup (regime_names regimes) →
  build_regimeIDs regimes !! name = Some i
  ↔ regime_names regimes !! N.to_nat i = Some name.
Proof.
  intros Hlen Hnodup.
  destruct (build_regimeIDs_table regimes Hlen) as [_ Hiff].
  by rewrite Hiff, first_seen_id.
Qed.

(** Regimes A, B, A: two distinct names, the first one repeated. *)
Lemma regimeIDs_dense_bijection_witness :
  let regimes := [Element "Regime" [("name", "A")] "" [];
                  Element "Regime" [("name", "B")] "" [];
                  Element "Regime" [("name", "A")] "" []] in
  N.of_nat (length regimes) < 2 ^ 32 ∧
  size (build_regimeIDs regimes) = length (first_seen (regime_names regimes)).
Proof.
  intros regimes.
  assert (N.of_nat (length regimes) < 2 ^ 32) as H by reflexivity.
  split; [exact H|].
  exact (proj1 (proj2 (regimeIDs_dense_bijection_in_document_order regimes H))).
Defined.

(** ** The calls of [generateModelCode] *)

Lemma for_each_app {A S} (body : A → S → result S) l1 l2 s :
  for_each body (l1 ++ l2) s = s' ← for_each body l1 s; for_each body l2 s'.
Proof.
  revert s. induction l1 as [|x l1 IH]; intros s; simpl; [done|].
  destruct (body x s) as [s'|e]; simpl; [apply IH|done].
Qed.

Lemma for_each_fmap {A B S} (f : A → B) (body : B → S → result S) l s :
  for_each body (f <$> l) s = for_each (λ x, body (f x)) l s.
Proof.
  revert s. induction l as [|x l IH]; intros s; simpl; [done|].
  destruct (body (f x) s) as [s'|e]; simpl; [apply IH|done].
Qed.

Lemma map_index_fst m k : (map_index m k).1 = regime_id m k.
Proof. unfold map_index, regime_id. by destruct (m !! k). Qed.

Lemma map_index_snd m k k' :
  regime_id (map_index m k).2 k' = regime_id m k'.
Proof.
  unfold map_index, regime_id. destruct (m !! k) eqn:Hk; simpl; [done|].
  destruct (decide (k = k')) as [<-|Hne].
  - by rewrite lookup_insert_eq, Hk.
  - by rewrite lookup_insert_ne.
Qed.

Section calls.

Context {St : Type}.
Variables objectHandlerEvent objectHandlerCondition objectHandlerImpulse
          objectHandlerTimeDerivative : xml_tree → N → N → St → result St.
Variable regimeEndFunc : bool → N → St → result St.
Variable ids : gmap string N.

#[local] Abbreviation agree := (@agree St ids).

Lemma agree_bind r1 r2 (f : gmap string N * St → result (gmap string N * St))
    (g : St → result St) :
  agree r1 r2 →
  (∀ m st, (∀ k, regime_id m k = regime_id ids k) → agree (f (m, st)) (g st)) →
  agree (r1 ≫= f) (r2 ≫= g).
Proof.
  destruct r1 as [[m st]|e], r2 as [st'|e']; simpl; try done.
  intros [Hm <-] H. by apply H.
Qed.

Lemma transition_loop_calls onObject nodes cur m st :
  (∀ k, regime_id m k = regime_id ids k) →
  agree (transition_loop onObject nodes cur (m, st))
        (for_each (λ n, onObject n cur (regime_id ids (attr n "target_regime")))
                  nodes st).
Proof.
  unfold transition_loop.
  revert m st. induction nodes as [|n nodes IH]; intros m st Hm; simpl; [done|].
  pose proof (map_index_fst m (attr n "target_regime")) as H1.
  pose proof (map_index_snd m (attr n "target_regime")) as H2.
  destruct (map_index m (attr n "target_regime")) as [tgt m']. simpl in *.
  subst tgt. rewrite Hm.
  destruct (onObject n cur _ st) as [st'|e]; simpl; [|done].
  apply IH. intros k. by rewrite H2.
Qed.

Lemma agree_app {A} r (l1 l2 : list A) st (body : A → St → result St)
    (f : gmap string N * St → result (gmap string N * St)) :
  agree r (for_each body l1 st) →
  (∀ m st', (∀ k, regime_id m k = regime_id ids k) →
            agree (f (m, st')) (for_each body l2 st')) →
  agree (r ≫= f) (for_each body (l1 ++ l2) st).
Proof. intros H1 H2. rewrite for_each_app. by apply agree_bind. Qed.

#[local] Abbreviation dispatch' := (dispatch objectHandlerEvent objectHandlerCondition
  objectHandlerImpulse objectHandlerTimeDerivative regimeEndFunc).

Lemma regime_body_calls multipleRegimes regime m st :
  (∀ k, regime_id m k = regime_id ids k) →
  agree (regime_body objectHandlerEvent objectHandlerCondition
           objectHandlerImpulse objectHandlerTimeDerivative regimeEndFunc
           multipleRegimes regime (m, st))
        (for_each dispatch' (regime_calls ids multipleRegimes regime) st).
Proof.
  intros Hm. unfold regime_body, regime_calls, object_calls.
  pose proof (map_index_fst m (attr regime "name")) as H1.
  pose proof (map_index_snd m (attr regime "name")) as H2.
  destruct (map_index m (attr regime "name")) as [cur m']. simpl in H1, H2.
  subst cur. rewrite Hm. rewrite <- !app_assoc.
  assert (∀ k, regime_id m' k = regime_id ids k) as Hm'.
  { intros k. by rewrite H2. }
  unfold transition_calls, derivative_calls.
  apply agree_app.
  { rewrite for_each_fmap. by apply transition_loop_calls. }
  intros m1 st1 Hm1. apply agree_app.
  { rewrite for_each_fmap. by apply transition_loop_calls. }
  intros m2 st2 Hm2. apply agree_app.
  { rewrite for_each_fmap. by apply transition_loop_calls. }
  intros m3 st3 Hm3. rewrite for_each_app, for_each_fmap. simpl.
  destruct (for_each _ _ st3) as [st4|e]; simpl; [|done].
  by destruct (regimeEndFunc _ _ st4).
Qed.

Lemma regimes_calls multipleRegimes regimes m st :
  (∀ k, regime_id m k = regime_id ids k) →
  agree (for_each (regime_body objectHandlerEvent objectHandlerCondition
                     objectHandlerImpulse objectHandlerTimeDerivative
                     regimeEndFunc multipleRegimes) regimes (m, st))
        (for_each dispatch'
           (mjoin (regime_calls ids multipleRegimes <$> regimes)) st).
Proof.
  revert m st. induction regimes as [|r regimes IH]; intros m st Hm.
  - done.
  - change (mjoin (regime_calls ids multipleRegimes <$> r :: regimes))
      with (regime_calls ids multipleRegimes r ++
            mjoin (regime_calls ids multipleRegimes <$> regimes)).
    change (for_each ?b (r :: regimes) ?s)
      with (b r s ≫= for_each b regimes).
    apply agree_app; [by apply regime_body_calls|].
    intros m' st' Hm'. by apply IH.
Qed.

End calls.

(** Whatever the handlers are, [generateModelCode] drives them with the
    calls of [model_calls], in that order, and returns the regime flag; an
    exception of a handler ends the traversal. *)
Lemma generateModelCode_replay {St} (hE hC hI hT : xml_tree → N → N → St → result St)
    (regimeEnd : bool → N → St → result St) componentClass st :
  generateModelCode hE hC hI hT regimeEnd componentClass st =
  st' ← replay hE hC hI hT regimeEnd (model_calls componentClass) st;
  Ok (has_multiple_regimes componentClass, st').
Proof.
  unfold generateModelCode, model_calls, replay, has_multiple_regimes, regimes_of.
  set (regimes := children (child componentClass "Dynamics") "Regime").
  set (ids := build_regimeIDs regimes).
  pose proof (regimes_calls hE hC hI hT regimeEnd ids
                (bool_decide (1 < size ids)%nat) regimes ids st) as H.
  destruct (for_each (regime_body _ _ _ _ _ _) _ _) as [[m st1]|e],
           (for_each (dispatch _ _ _ _ _) _ _) as [st2|e']; simpl in *.
  - destruct H as [_ ->]; done.
  - by destruct H.
  - by destruct H.
  - by destruct H.
Qed.

Lemma replay_log calls log :
  replay (log_object hEvent) (log_object hCondition) (log_object hImpulse)
    (log_object hTimeDerivative) log_regime_end calls log = Ok (log ++ calls).
Proof.
  revert log. induction calls as [|c calls IH]; intros log; simpl.
  - by rewrite app_nil_r.
  - unfold replay in *. simpl.
    assert (dispatch (log_object hEvent) (log_object hCondition)
              (log_object hImpulse) (log_object hTimeDerivative)
              log_regime_end c log = Ok (log ++ [c])) as ->.
    { by destruct c as [[] ? ? ?|? ?]. }
    simpl. rewrite IH. by rewrite <- app_assoc.
Qed.

Lemma generateModelCode_log_calls componentClass :
  generateModelCode_log componentClass =
  Ok (has_multiple_regimes componentClass, model_calls componentClass).
Proof.
  unfold generateModelCode_log. rewrite generateModelCode_replay, replay_log.
  done.
Qed.

Lemma map_insert_lookup_ne m k v name :
  k ≠ name → map_insert m k v !! name = m !! name.
Proof.
  intros Hne. unfold map_insert. destruct (m !! k); [done|].
  by rewrite lookup_insert_ne.
Qed.

Lemma build_regimeIDs_lookup_None (regimes : list xml_tree) name :
  name ∉ regime_names regimes → build_regimeIDs regimes !! name = None.
Proof.
  unfold build_regimeIDs.
  assert ((∅ : gmap string N) !! name = None) as Hm by apply lookup_empty.
  revert Hm. generalize (∅ : gmap string N).
  induction regimes as [|r regimes IH]; intros m Hm Hname; simpl; [done|].
  apply not_elem_of_cons in Hname as [Hr Hrest].
  apply IH; [|done]. rewrite map_insert_lookup_ne by done. done.
Qed.

Lemma regime_id_unknown (regimes : list xml_tree) name :
  name ∉ regime_names regimes → regime_id (build_regimeIDs regimes) name = 0.
Proof.
  intros H. unfold regime_id. by rewrite build_regimeIDs_lookup_None.
Qed.

Lemma regime_calls_in_model_calls componentClass regime c :
  regime ∈ regimes_of componentClass →
  c ∈ regime_calls (build_regimeIDs (regimes_of componentClass))
        (has_multiple_regimes componentClass) regime →
  c ∈ model_calls componentClass.
Proof.
  intros Hr Hc. unfold model_calls. apply list_elem_of_join.
  eexists. split; [exact Hc|]. by apply list_elem_of_fmap_2.
Qed.

(** C1, as the code has it.  [generateModelCode] itself never throws, and
    for a transition node whose target_regime names no Regime the handler
    is invoked with target regime ID 0: the name was given the
    value-initialised ID by the table lookup. *)
Theorem unknown_target_regime_reads_as_zero (componentClass : xml_node) :
  ∃ calls,
    generateModelCode_log componentClass
      = Ok (has_multiple_regimes componentClass, calls) ∧
    ∀ regime h tagname node,
      regime ∈ regimes_of componentClass →
      (h, tagname) ∈ [(hCondition, "OnCondition"); (hEvent, "OnEvent");
                      (hImpulse, "OnImpulse")] →
      node ∈ kids_named regime tagname →
      attr node "target_regime" ∉ regime_names (regimes_of componentClass) →
      OnObject h node
        (regime_id (build_regimeIDs (regimes_of componentClass))
                   (attr regime "name")) 0 ∈ calls.
Proof.
  exists (model_calls componentClass).
  split; [apply generateModelCode_log_calls|].
  intros regime h tagname node Hr Hk Hn Hunknown.
  apply (regime_calls_in_model_calls _ regime); [done|].
  unfold regime_calls, object_calls, transition_calls.
  rewrite !elem_of_app, !list_elem_of_fmap.
  rewrite <- (regime_id_unknown _ _ Hunknown).
  rewrite !elem_of_cons in Hk.
  destruct Hk as [[= -> ->]|[[= -> ->]|[[= -> ->]|Hk]]];
    [| | |by apply elem_of_nil in Hk].
  - left. left. eauto.
  - left. right. left. eauto.
  - left. right. right. left. eauto.
Qed.

(** C2, as the code has it.  Every TimeDerivative node is handed to the
    derivative handler with the ID of its regime as current regime and
    the constant 0 as target regime. *)
Theorem time_derivative_target_is_zero (componentClass : xml_node) :
  ∃ calls,
    generateModelCode_log componentClass
      = Ok (has_multiple_regimes componentClass, calls) ∧
    (∀ regime node,
       regime ∈ regimes_of componentClass →
       node ∈ kids_named regime "TimeDerivative" →
       OnObject hTimeDerivative node
         (regime_id (build_regimeIDs (regimes_of componentClass))
                    (attr regime "name")) 0 ∈ calls) ∧
    (∀ node cur tgt,
       OnObject hTimeDerivative node cur tgt ∈ calls → tgt = 0).
Proof.
  exists (model_calls componentClass).
  split; [apply generateModelCode_log_calls|]. split.
  - intros regime node Hr Hn.
    apply (regime_calls_in_model_calls _ regime); [done|].
    unfold regime_calls, object_calls, derivative_calls.
    rewrite !elem_of_app, !list_elem_of_fmap.
    left. right. right. right. eauto.
  - intros node cur tgt Hc. unfold model_calls in Hc.
    apply list_elem_of_join in Hc as (l & Hc & Hl).
    apply list_elem_of_fmap in Hl as (regime & -> & _).
    unfold regime_calls, object_calls, transition_calls, derivative_calls in Hc.
    rewrite !elem_of_app, !list_elem_of_fmap, list_elem_of_singleton in Hc.
    destruct Hc as [[Hc|[Hc|[Hc|Hc]]]|Hc];
      try (destruct Hc as (n & Hc & _)); congruence.
Qed.

(** C1, as the specification has it, fails: the unknown target "Ghost"
    raises no error, in [generateModelCode] or in the neuron-model
    constructor; the condition handler is called with target ID 0, and the
    constructor writes the transition [_regimeID = 0]. *)
Lemma unknown_target_regime_is_not_rejected :
  generateModelCode_log (Some ghost_component)
    = Ok (true,
          [OnObject hCondition (mk_condition "Ghost" [mk_trigger "V > 1"]) 0 0;
           OnObject hTimeDerivative (mk_derivative "V" "-V / tau") 0 0;
           RegimeEnd true 0;
           OnObject hTimeDerivative (mk_derivative "V" "1 / tau") 1 0;
           RegimeEnd true 1]) ∧
  SpineMLNeuronModel.new "ghost.xml"
      (SpineMLNeuronModel.Loaded (mk_document ghost_component)) ∅
    = Ok (SpineMLNeuronModel.mk ["tau"] [("V", "scalar");
                                          ("_regimeID", "unsigned int")]
            [Text "if(_regimeID == "; Text "0"; Text ")"; OB 1;
             Text "if("; Text "V > 1"; Text ")"; OB 2;
             Text "_regimeID = "; Text "0"; Text ";"; ENDL; CB 2;
             Text "V"; Text " += DT * ("; Text "-V / tau"; Text ");"; ENDL;
             CB 1;
             Text "else "; Text "if(_regimeID == "; Text "1"; Text ")"; OB 1;
             Text "V"; Text " += DT * ("; Text "1 / tau"; Text ");"; ENDL;
             CB 1]
            "").
Proof. split; vm_compute; reflexivity. Qed.

(** C2, as the specification has it, fails: in regime B, whose ID is 1,
    the derivative handler is called with target regime ID 0. *)
Lemma time_derivative_target_differs_from_current :
  generateModelCode_log (Some ghost_component)
    = Ok (true,
          [OnObject hCondition (mk_condition "Ghost" [mk_trigger "V > 1"]) 0 0;
           OnObject hTimeDerivative (mk_derivative "V" "-V / tau") 0 0;
           RegimeEnd true 0;
           OnObject hTimeDerivative (mk_derivative "V" "1 / tau") 1 0;
           RegimeEnd true 1]) ∧
  ¬ (∀ flag calls node cur tgt,
       generateModelCode_log (Some ghost_component) = Ok (flag, calls) →
       OnObject hTimeDerivative node cur tgt ∈ calls → tgt = cur).
Proof.
  split; [vm_compute; reflexivity|].
  intros H.
  specialize (H true _ (mk_derivative "V" "1 / tau") 1 0 eq_refl).
  discriminate H. vm_compute. repeat constructor.
Qed.

(** ** Regime guards *)

Lemma append_cons x (a b : string) : String x a +:+ b = String x (a +:+ b).
Proof. reflexivity. Qed.

Lemma append_empty_l (a : string) : "" +:+ a = a.
Proof. reflexivity. Qed.

Lemma append_assoc (a b c : string) : (a +:+ b) +:+ c = a +:+ (b +:+ c).
Proof.
  induction a as [|x a IH]; [done|]. by rewrite !append_cons, IH.
Qed.

Lemma append_empty_r (a : string) : a +:+ "" = a.
Proof. induction a as [|x a IH]; [done|]. by rewrite append_cons, IH. Qed.

Lemma tellp_positive (s : string) :
  (0 <? CodeStream.tellp s)%nat = if decide (s = "") then false else true.
Proof. by destruct s. Qed.

(** One regime end, in the words of [guarded]. *)
Lemma onRegimeEnd_step multipleRegimes id cs :
  CodeStream.onRegimeEnd multipleRegimes id cs =
  let body := CodeStream.m_CurrentRegimeStream cs in
  if decide (body = "") then cs
  else if multipleRegimes
  then CodeStream.mk
         (CodeStream.m_CodeStream cs ++
          guarded (CodeStream.m_FirstNonEmptyRegime cs) id body) "" false
  else CodeStream.mk (CodeStream.m_CodeStream cs ++ [Text body]) ""
         (CodeStream.m_FirstNonEmptyRegime cs).
Proof.
  unfold CodeStream.onRegimeEnd. rewrite tellp_positive. simpl.
  destruct (decide _) as [?|?]; [done|].
  destruct multipleRegimes; [|done].
  destruct (CodeStream.m_FirstNonEmptyRegime cs); unfold guarded, put_unsigned, put;
    simpl; by rewrite <- ?app_assoc.
Qed.

Section code_stream.

Variable emit : handler → xml_tree → N → N → string.

#[local] Abbreviation replay_text :=
  (replay (emit_handler emit hEvent) (emit_handler emit hCondition)
     (emit_handler emit hImpulse) (emit_handler emit hTimeDerivative)
     regime_end).

Lemma replay_object_calls calls cs :
  Forall (λ c, ∀ m cur, c ≠ RegimeEnd m cur) calls →
  replay_text calls cs =
  Ok (CodeStream.write (foldr String.append "" (call_text emit <$> calls)) cs).
Proof.
  revert cs. induction calls as [|c calls IH]; intros cs Hc.
  - unfold CodeStream.write. simpl. rewrite append_empty_r. by destruct cs.
  - apply Forall_cons in Hc as [Hc Hcalls]. unfold replay in *. simpl.
    destruct c as [h node cur tgt|m cur]; [|by destruct (Hc m cur)].
    assert (dispatch (emit_handler emit hEvent) (emit_handler emit hCondition)
              (emit_handler emit hImpulse) (emit_handler emit hTimeDerivative)
              regime_end (OnObject h node cur tgt) cs
            = Ok (CodeStream.write (emit h node cur tgt) cs)) as ->.
    { by destruct h. }
    simpl. rewrite IH by done. unfold CodeStream.write. simpl.
    by rewrite append_assoc.
Qed.

Lemma object_calls_no_regime_end ids regime :
  Forall (λ c, ∀ m cur, c ≠ RegimeEnd m cur) (object_calls ids regime).
Proof.
  unfold object_calls, transition_calls, derivative_calls.
  rewrite !Forall_app, !Forall_fmap. repeat split; by apply Forall_true.
Qed.

Lemma replay_regimes ids multipleRegimes regimes cs :
  CodeStream.m_CurrentRegimeStream cs = "" →
  ∃ cs',
    replay_text (mjoin (regime_calls ids multipleRegimes <$> regimes)) cs
      = Ok cs' ∧
    CodeStream.m_CodeStream cs' =
      CodeStream.m_CodeStream cs ++
      assemble multipleRegimes (CodeStream.m_FirstNonEmptyRegime cs)
               (regime_block emit ids <$> regimes) ∧
    CodeStream.m_CurrentRegimeStream cs' = "".
Proof.
  revert cs. induction regimes as [|r regimes IH]; intros cs Hempty.
  - exists cs. simpl. by rewrite app_nil_r.
  - change (mjoin (regime_calls ids multipleRegimes <$> r :: regimes))
      with (regime_calls ids multipleRegimes r ++
            mjoin (regime_calls ids multipleRegimes <$> regimes)).
    set (rest := mjoin (regime_calls ids multipleRegimes <$> regimes)) in *.
    unfold replay, regime_calls in *. rewrite !for_each_app.
    pose proof (replay_object_calls (object_calls ids r) cs
                  (object_calls_no_regime_end ids r)) as Hobj.
    unfold replay in Hobj. rewrite Hobj. clear Hobj.
    set (body := foldr String.append "" (call_text emit <$> object_calls ids r)).
    set (id := regime_id ids (attr r "name")).
    change (regime_block emit ids <$> r :: regimes)
      with ((id, body) :: (regime_block emit ids <$> regimes)).
    simpl. rewrite onRegimeEnd_step.
    unfold CodeStream.write. simpl. rewrite Hempty, append_empty_l.
    destruct (decide (body = "")) as [Hb|Hb].
    + destruct (IH cs Hempty) as (cs' & Hrun & Hout & Hscratch).
      exists cs'. split; [|done].
      rewrite <- Hrun. f_equal. rewrite Hb. destruct cs. simpl in Hempty.
      by rewrite Hempty.
    + destruct multipleRegimes.
      * edestruct IH as (cs' & Hrun & Hout & Hscratch);
          [|exists cs'; split; [exact Hrun|]]; [done|].
        split; [|done]. rewrite Hout. simpl. by rewrite <- app_assoc.
      * edestruct IH as (cs' & Hrun & Hout & Hscratch);
          [|exists cs'; split; [exact Hrun|]]; [done|].
        split; [|done]. rewrite Hout. simpl. by rewrite <- app_assoc.
Qed.

End code_stream.

Lemma assemble_single first (blocks : list (N * string)) :
  assemble false first blocks
  = Text <$> filter (λ body, body ≠ "") (snd <$> blocks).
Proof.
  induction blocks as [|[id body] blocks IH]; [done|]. simpl.
  destruct (decide (body = "")) as [->|Hb].
  - by rewrite filter_cons_False by auto.
  - rewrite filter_cons_True by done. simpl. by rewrite IH.
Qed.

(** ** Token substitution *)

Lemma length_append (a b : string) :
  String.length (a +:+ b) = (String.length a + String.length b)%nat.
Proof.
  induction a as [|x a IH]; [done|]. rewrite append_cons. simpl. by rewrite IH.
Qed.

Lemma length_format repl g1 g2 :
  String.length (format repl g1 g2)
  = (String.length g1 + String.length repl + String.length g2 + 3)%nat.
Proof. unfold format. rewrite !length_append. simpl. lia. Qed.

Section wrap_once.

Variable name : string.

#[local] Abbreviation wrap := (regex_replace name name).

(** The text never shrinks... *)
Lemma wrap_length_ge bol skip s :
  (String.length s ≤ String.length (wrap bol skip s) + skip)%nat.
Proof.
  revert bol skip. induction s as [|c s IH]; intros bol skip.
  - simpl. lia.
  - destruct skip as [|k]; simpl.
    + destruct (match_here bol name (String c s)) as [[g1 g2]|].
      * rewrite length_append, length_format.
        specialize (IH false
          (String.length g1 + String.length name + String.length g2 - 1)%nat).
        lia.
      * simpl. specialize (IH false 0%nat). lia.
    + specialize (IH false k). lia.
Qed.

(** ... and a match makes it longer. *)
Lemma wrap_match_longer bol s g1 g2 :
  match_here bol name s = Some (g1, g2) →
  (String.length s < String.length (wrap bol 0 s))%nat.
Proof.
  intros Hm. destruct s as [|c s]; simpl; rewrite Hm.
  - rewrite length_append, length_format. simpl. lia.
  - rewrite length_append, length_format.
    pose proof (wrap_length_ge false
      (String.length g1 + String.length name + String.length g2 - 1)%nat s).
    simpl. lia.
Qed.

(** Without growth nothing was replaced. *)
Lemma wrap_same_length bol skip s :
  (String.length (wrap bol skip s) + skip ≤ String.length s)%nat →
  wrap bol skip s = drop_chars skip s.
Proof.
  revert bol skip. induction s as [|c s IH]; intros bol skip Hlen.
  - destruct skip as [|k]; [|done].
    destruct (match_here bol name "") as [[g1 g2]|] eqn:Hm.
    + apply wrap_match_longer in Hm. lia.
    + simpl. by rewrite Hm.
  - destruct skip as [|k].
    + destruct (match_here bol name (String c s)) as [[g1 g2]|] eqn:Hm.
      * apply wrap_match_longer in Hm. lia.
      * simpl in *. rewrite Hm in *. simpl in *. f_equal.
        apply (IH false 0%nat). lia.
    + simpl in *. apply IH. lia.
Qed.

#[local] Abbreviation has_wrapped := (has_wrapped name).

Lemma has_wrapped_cons c s : has_wrapped s → has_wrapped (String c s).
Proof.
  intros (pre & post & ->). exists (String c pre), post. done.
Qed.

Lemma has_wrapped_append a s : has_wrapped s → has_wrapped (a +:+ s).
Proof.
  intros H. induction a as [|c a IH]; [done|].
  rewrite append_cons. by apply has_wrapped_cons.
Qed.

(** Where something was replaced, the result holds a wrapped occurrence. *)
Lemma wrap_changed_has_wrapped bol skip s :
  wrap bol skip s ≠ drop_chars skip s → has_wrapped (wrap bol skip s).
Proof.
  revert bol skip. induction s as [|c s IH]; intros bol skip Hne.
  - destruct skip as [|k]; [|done]. simpl in *.
    destruct (match_here bol name "") as [[g1 g2]|]; [|done].
    exists (g1 +:+ "$"), (g2 +:+ ""). unfold format.
    by rewrite !append_assoc.
  - destruct skip as [|k]; simpl in *.
    + destruct (match_here bol name (String c s)) as [[g1 g2]|].
      * exists (g1 +:+ "$"),
          (g2 +:+ wrap false
             (String.length g1 + String.length name + String.length g2 - 1) s).
        unfold format. by rewrite !append_assoc.
      * apply has_wrapped_cons, IH. simpl. congruence.
    + by apply IH.
Qed.

Lemma match_name_append post : match_name name (name +:+ post) = Some post.
Proof.
  induction name as [|a n IH]; [done|]. rewrite append_cons. simpl.
  by rewrite Ascii.eqb_refl.
Qed.

(** A wrapped occurrence is itself a match: its parentheses are boundary
    characters. *)
Lemma match_here_wrapped bol post :
  is_Some (match_here bol name ("(" +:+ name +:+ ")" +:+ post)).
Proof.
  unfold match_here.
  destruct (if bol then _ else _) as [g2|]; [done|].
  rewrite append_cons, append_empty_l. simpl.
  unfold match_tail. rewrite match_name_append. simpl. done.
Qed.

(** A text that holds a wrapped occurrence grows when wrapped. *)
Lemma wrap_has_wrapped_longer bol s :
  has_wrapped s → (String.length s < String.length (wrap bol 0 s))%nat.
Proof.
  intros (pre & post & ->). revert bol.
  induction pre as [|c pre IH]; intros bol.
  - rewrite append_empty_l.
    destruct (match_here_wrapped bol post) as [[g1 g2] Hm].
    by eapply wrap_match_longer.
  - rewrite append_cons.
    destruct (match_here bol name (String c (pre +:+ "(" +:+ name +:+ ")" +:+ post)))
      as [[g1 g2]|] eqn:Hm.
    + by eapply wrap_match_longer.
    + simpl. rewrite Hm. simpl. specialize (IH false). lia.
Qed.

End wrap_once.

(** Wrapping a second time gives the same text only where the first time
    changed nothing. *)
Lemma wrap_twice_iff (code name : string) :
  wrapVariableNames (wrapVariableNames code name) name
    = wrapVariableNames code name
  ↔ wrapVariableNames code name = code.
Proof.
  unfold wrapVariableNames, wrapAndReplaceVariableNames. split.
  - intros Htwice.
    destruct (decide (regex_replace name name true 0 code = code))
      as [|Hne]; [done|].
    apply (wrap_changed_has_wrapped name true 0) in Hne.
    apply (wrap_has_wrapped_longer name true) in Hne.
    rewrite Htwice in Hne. lia.
  - intros Honce. by rewrite !Honce.
Qed.

Lemma regex_replace_skip_all name repl k s :
  (String.length s ≤ k)%nat → regex_replace name repl false k s = "".
Proof.
  revert k. induction s as [|c s IH]; intros k Hk.
  - by destruct k.
  - destruct k as [|k]; simpl in *; [lia|]. apply IH. lia.
Qed.

Lemma match_name_self name : match_name name name = Some "".
Proof.
  rewrite <- (append_empty_r name) at 2. apply match_name_append.
Qed.

Lemma match_name_head_ne a name c s :
  a ≠ c → match_name (String a name) (String c s) = None.
Proof.
  intros Hne. simpl. by destruct (Ascii.eqb_spec a c).
Qed.

Lemma regex_replace_match name repl bol c s g1 g2 :
  match_here bol name (String c s) = Some (g1, g2) →
  regex_replace name repl bol 0 (String c s)
  = format repl g1 g2 +:+
    regex_replace name repl false
      (String.length g1 + String.length name + String.length g2 - 1) s.
Proof. intros H. simpl. by rewrite H. Qed.

Lemma regex_replace_no_match name repl bol c s :
  match_here bol name (String c s) = None →
  regex_replace name repl bol 0 (String c s)
  = String c (regex_replace name repl false 0 s).
Proof. intros H. simpl. by rewrite H. Qed.

(** For an identifier, the bare name is wrapped, and the wrapped name is
    wrapped again. *)
Lemma wrap_rewraps (name : string) :
  is_identifier name = true →
  wrapVariableNames name name = "$(" +:+ name +:+ ")" ∧
  wrapVariableNames ("$(" +:+ name +:+ ")") name
    = "$($(" +:+ name +:+ "))".
Proof.
  intros Hid. destruct name as [|a n]; [done|].
  apply andb_prop in Hid as [Ha _].
  assert (∀ x, match_name (String a n) (String "$" x) = None) as Hdollar.
  { intros x. apply match_name_head_ne. by intros ->. }
  assert (∀ x, match_name (String a n) (String "(" x) = None) as Hparen.
  { intros x. apply match_name_head_ne. by intros ->. }
  assert (String.length (String a n) = S (String.length n)) as Hlen by done.
  unfold wrapVariableNames, wrapAndReplaceVariableNames.
  remember (String a n) as name eqn:Hname. split.
  - rewrite Hname at 3. rewrite (regex_replace_match _ _ _ _ _ "" "").
    + rewrite regex_replace_skip_all by (simpl; lia).
      unfold format. by rewrite !append_empty_l, !append_empty_r.
    + rewrite <- Hname. unfold match_here, match_tail.
      by rewrite match_name_self.
  - rewrite !append_cons, append_empty_l.
    rewrite regex_replace_no_match.
    2:{ unfold match_here, match_tail. rewrite Hdollar. simpl.
        by rewrite Hparen. }
    rewrite (regex_replace_match _ _ _ _ _ "(" ")").
    2:{ unfold match_here, match_tail. simpl.
        by rewrite match_name_append. }
    rewrite regex_replace_skip_all.
    + unfold format. by rewrite append_empty_r.
    + rewrite length_append. simpl. lia.
Qed.

(** C3, as the code has it.  For an identifier, wrapping a second time
    gives the same text exactly when the first time changed nothing: an
    occurrence the first pass wrapped as [$(name)] stands between
    parentheses, which are boundary characters, and the second pass wraps
    it again, to [$($(name))]. *)
Theorem wrap_twice_same_iff_unchanged (code name : string) :
  is_identifier name = true →
  (wrapVariableNames (wrapVariableNames code name) name
     = wrapVariableNames code name
   ↔ wrapVariableNames code name = code) ∧
  wrapVariableNames ("$(" +:+ name +:+ ")") name = "$($(" +:+ name +:+ "))".
Proof.
  intros Hid. split; [apply wrap_twice_iff|].
  by apply wrap_rewraps.
Qed.

(** The text "x + V" and the name V. *)
Lemma wrap_twice_same_iff_unchanged_witness :
  is_identifier "V" = true ∧
  (wrapVariableNames (wrapVariableNames "x + V" "V") "V"
     = wrapVariableNames "x + V" "V"
   ↔ wrapVariableNames "x + V" "V" = "x + V").
Proof.
  assert (is_identifier "V" = true) as H by reflexivity.
  split; [exact H|].
  exact (proj1 (wrap_twice_same_iff_unchanged "x + V" "V" H)).
Defined.

(** C3, as the specification has it, fails: wrapping [V] in the text "V"
    gives "$(V)", and wrapping again gives "$($(V))". *)
Lemma wrap_twice_differs :
  wrapVariableNames "V" "V" = "$(V)" ∧
  wrapVariableNames (wrapVariableNames "V" "V") "V" = "$($(V))" ∧
  wrapVariableNames (wrapVariableNames "V" "V") "V"
    ≠ wrapVariableNames "V" "V".
Proof. repeat split; vm_compute; congruence. Qed.

(** The example of the specification: an occurrence inside [Vx] or [xV]
    is left alone and the isolated one is wrapped. *)
Lemma wrap_isolated_occurrence :
  wrapVariableNames "Vx + xV + V" "V" = "Vx + xV + $(V)".
Proof. vm_compute. reflexivity. Qed.

(** C6 at inputs where the code departs from it.  A match uses up the
    boundary character behind the name, so an occurrence that follows at
    once is not seen; and a digit counts as a boundary, so the name is
    rewritten inside the longer identifiers [V1] and [x1V]. *)
Theorem wrap_misses_and_splits :
  wrapVariableNames "V+V" "V" = "$(V)+V" ∧
  wrapVariableNames "V1 + x1V" "V" = "$(V)1 + x1$(V)".
Proof. split; vm_compute; reflexivity. Qed.

(** ** Parameters and variables *)

Lemma set_iter_elem (s : gset string) x : x ∈ set_iter s ↔ x ∈ s.
Proof.
  unfold set_iter. rewrite merge_sort_Permutation. apply elem_of_elements.
Qed.

Lemma gennVariables_elem (variableParams : gset string)
    (stateVariables : list xml_tree) x :
  x ∈ foldl (λ s n, s ∪ {[ attr n "name" ]}) variableParams stateVariables
  ↔ x ∈ variableParams ∨ x ∈ (λ n, attr n "name") <$> stateVariables.
Proof.
  revert variableParams.
  induction stateVariables as [|n rest IH]; intros vp; simpl.
  - rewrite elem_of_nil. tauto.
  - rewrite IH, elem_of_union, elem_of_singleton, elem_of_cons. tauto.
Qed.

(** C8, as the code has it.  A declared Parameter name is a free
    parameter exactly when it is not among the scalar variables, which are
    the names of the caller's variable set and of the StateVariable
    nodes.  The entry [_regimeID] of a component with several regimes is
    appended to the variables whatever the parameters are; apart from that
    name, being a scalar variable and being named in the variable list are
    the same. *)
Theorem parameters_split_by_scalar_variables (componentClass : xml_node)
    (variableParams : gset string) (multipleRegimes : bool) (p : string) :
  p ∈ parameter_names componentClass →
  let paramNames :=
    (findModelVariables componentClass variableParams multipleRegimes).1 in
  let vars :=
    (findModelVariables componentClass variableParams multipleRegimes).2 in
  ((p, "scalar") ∈ vars
   ↔ p ∈ variableParams ∨ p ∈ state_variable_names componentClass) ∧
  (p ∈ paramNames ↔ (p, "scalar") ∉ vars) ∧
  (multipleRegimes = false ∨ p ≠ "_regimeID" →
   (p ∈ vars.*1 ↔ (p, "scalar") ∈ vars)).
Proof.
  intros Hp. unfold findModelVariables, state_variable_names. simpl.
  set (G := foldl _ variableParams _).
  assert (∀ x, (x, "scalar") ∈
            (if multipleRegimes
             then ((λ vname, (vname, "scalar")) <$> set_iter G)
                  ++ [("_regimeID", "unsigned int")]
             else (λ vname, (vname, "scalar")) <$> set_iter G)
          ↔ x ∈ G) as Hscalar.
  { intros x. rewrite <- set_iter_elem.
    destruct multipleRegimes;
      rewrite ?elem_of_app, ?list_elem_of_singleton, list_elem_of_fmap.
    - split.
      + intros [(y & [= ->] & Hy)|[=]]. done.
      + intros Hx. left. eauto.
    - split.
      + intros (y & [= ->] & Hy). done.
      + intros Hx. eauto. }
  split; [|split].
  - rewrite Hscalar. apply gennVariables_elem.
  - rewrite Hscalar, list_elem_of_filter. fold (parameter_names componentClass).
    tauto.
  - intros Hcase. rewrite Hscalar, <- set_iter_elem.
    destruct multipleRegimes;
      rewrite ?fmap_app, ?elem_of_app, <- !list_fmap_compose; simpl;
      rewrite ?list_fmap_id, ?list_elem_of_singleton.
    + destruct Hcase as [?|?]; [done|]. tauto.
    + tauto.
Qed.

(** The Parameter tau of the sample component. *)
Lemma parameters_split_witness :
  "tau" ∈ parameter_names (Some ghost_component) ∧
  ("tau" ∈ (findModelVariables (Some ghost_component) ∅ true).1
   ↔ ("tau", "scalar") ∉ (findModelVariables (Some ghost_component) ∅ true).2).
Proof.
  assert ("tau" ∈ parameter_names (Some ghost_component)) as H.
  { vm_compute. apply list_elem_of_here. }
  split; [exact H|].
  exact (proj1 (proj2 (parameters_split_by_scalar_variables
                         (Some ghost_component) ∅ true "tau" H))).
Defined.

(** C8, as the specification has it, fails: the Parameter [_regimeID] of
    a component with two regimes is a free parameter and is named in the
    variable list too. *)
Lemma regimeID_parameter_in_both_lists :
  has_multiple_regimes (Some regimeID_component) = true ∧
  findModelVariables (Some regimeID_component) ∅ true
    = (["tau"; "_regimeID"],
       [("V", "scalar"); ("_regimeID", "unsigned int")]) ∧
  "_regimeID" ∈ parameter_names (Some regimeID_component) ∧
  "_regimeID" ∈ (findModelVariables (Some regimeID_component) ∅ true).1 ∧
  "_regimeID" ∈ (findModelVariables (Some regimeID_component) ∅ true).2.*1.
Proof.
  split; [by vm_compute|]. split; [by vm_compute|].
  repeat split; vm_compute; repeat constructor.
Qed.

(** ** Value resolvers *)

(** [ParamValues::getValues] gives one value per declared parameter name,
    in the declared order: the mapped value, or zero. *)
Lemma ParamValues_getValues_spec (pv : ParamValues.t) :
  length (ParamValues.getValues pv)
    = length (getParamNames (ParamValues.m_Model pv)) ∧
  ∀ i name,
    getParamNames (ParamValues.m_Model pv) !! i = Some name →
    ParamValues.getValues pv !! i
      = Some (default double_zero (ParamValues.m_Values pv !! name)).
Proof.
  unfold ParamValues.getValues. split; [apply length_fmap|].
  intros i name Hi. rewrite list_lookup_fmap, Hi. simpl.
  by destruct (ParamValues.m_Values pv !! name).
Qed.

(** [VarValues::getValues] does the same for the declared variables. *)
Lemma VarValues_getValues_spec (vv : VarValues.t) :
  length (VarValues.getValues vv)
    = length (getVars (VarValues.m_Model vv)) ∧
  ∀ i name type,
    getVars (VarValues.m_Model vv) !! i = Some (name, type) →
    VarValues.getValues vv !! i
      = Some (default double_zero (VarValues.m_Values vv !! name)).
Proof.
  unfold VarValues.getValues. split; [apply length_fmap|].
  intros i name type Hi. rewrite list_lookup_fmap, Hi. simpl.
  by destruct (VarValues.m_Values vv !! name).
Qed.

(** A key that is no declared name changes nothing. *)
Lemma ParamValues_getValues_unknown_key values model key value :
  key ∉ getParamNames model →
  ParamValues.getValues (ParamValues.mk (<[key := value]> values) model)
  = ParamValues.getValues (ParamValues.mk values model).
Proof.
  unfold ParamValues.getValues. simpl. intros Hkey.
  apply list_fmap_ext. intros i name Hname.
  rewrite lookup_insert_ne; [done|].
  intros ->. apply Hkey. by eapply list_elem_of_lookup_2.
Qed.

Lemma VarValues_getValues_unknown_key values model key value :
  key ∉ (getVars model).*1 →
  VarValues.getValues (VarValues.mk (<[key := value]> values) model)
  = VarValues.getValues (VarValues.mk values model).
Proof.
  unfold VarValues.getValues. simpl. intros Hkey.
  apply list_fmap_ext. intros i [name type] Hname. simpl.
  rewrite lookup_insert_ne; [done|].
  intros ->. apply Hkey. apply list_elem_of_fmap.
  exists (name, type). split; [done|]. by eapply list_elem_of_lookup_2.
Qed.

(** C5 at inputs where [SpineMLNeuronModel::ParamValues::getValues]
    departs from it: it returns the values of its map, in key order,
    whatever the model declares.  For the names a, b, c and the map
    {b: 2.5} it returns one value where the other two resolvers return
    three; for the names b, a and the map {a: 1, b: 2} it returns the
    values in the order of the keys, not of the declaration. *)
Theorem neuron_ParamValues_ignores_declared_names :
  SpineMLNeuronModel.ParamValues.getValues
    (SpineMLNeuronModel.ParamValues.mk {[ "b" := double_2_5 ]})
    = [double_2_5] ∧
  ParamValues.getValues (ParamValues.mk {[ "b" := double_2_5 ]} abc_model)
    = [double_zero; double_2_5; double_zero] ∧
  VarValues.getValues (VarValues.mk {[ "b" := double_2_5 ]} abc_model)
    = [double_zero; double_2_5; double_zero] ∧
  SpineMLNeuronModel.ParamValues.getValues
    (SpineMLNeuronModel.ParamValues.mk
       (<[ "a" := double_1 ]> {[ "b" := double_2 ]}))
    = [double_1; double_2] ∧
  ParamValues.getValues
    (ParamValues.mk (<[ "a" := double_1 ]> {[ "b" := double_2 ]}) ba_model)
    = [double_2; double_1].
Proof. repeat split; vm_compute; reflexivity. Qed.

(** ** The neuron-model constructor *)

Lemma for_each_Err {A S} (P : string → Prop) (body : A → S → result S)
    (l : list A) (x : A) (s : S) :
  x ∈ l →
  (∀ y s, y ∈ l → match body y s with Ok _ => True | Err e => P e end) →
  (∀ s, match body x s with Ok _ => False | Err e => P e end) →
  ∃ e, for_each body l s = Err e ∧ P e.
Proof.
  revert s. induction l as [|y l IH]; intros s Hx Hall Hbad.
  - by apply elem_of_nil in Hx.
  - simpl. pose proof (Hall y s (list_elem_of_here _ _)) as Hy.
    destruct (body y s) as [s'|e] eqn:Hbody; simpl.
    + apply elem_of_cons in Hx as [->|Hx].
      * specialize (Hbad s). by rewrite Hbody in Hbad.
      * apply IH; [done| |done]. intros z s0 Hz. apply Hall. by right.
    + eauto.
Qed.

(** In a single-regime model a condition ends in one of two exceptions or
    targets its own regime. *)
Lemma condition_body_single regimeName condition s :
  match SpineMLNeuronModel.condition_body false regimeName condition s with
  | Ok _ => has_trigger condition ∧ attr condition "target_regime" = regimeName
  | Err e =>
      (e = SpineMLNeuronModel.no_trigger ∧ ¬ has_trigger condition) ∨
      (e = SpineMLNeuronModel.not_self_target ∧ has_trigger condition ∧
       attr condition "target_regime" ≠ regimeName)
  end.
Proof.
  unfold SpineMLNeuronModel.condition_body, has_trigger.
  destruct (is_null _) eqn:Hnull; [left; split; [done|congruence]|].
  destruct (String.eqb_spec (attr condition "target_regime") regimeName)
    as [Heq|Hne]; simpl.
  - destruct (SpineMLNeuronModel.emits_spike condition); [|done].
    by destruct (map_index _ _).
  - right. done.
Qed.

Lemma single_regime_ids regime :
  build_regimeIDs [regime] = {[ attr regime "name" := 0 ]}.
Proof. done. Qed.

Lemma new_loaded url doc variableParams componentClass :
  child (child (Some doc) "SpineML") "ComponentClass" = Some componentClass →
  attr componentClass "type" = "neuron_body" →
  SpineMLNeuronModel.new url (SpineMLNeuronModel.Loaded doc) variableParams
  = let multipleRegimes := has_multiple_regimes (Some componentClass) in
    s ← for_each (SpineMLNeuronModel.regime_body multipleRegimes)
          (regimes_of (Some componentClass))
          (SpineMLNeuronModel.mk_loop
             (build_regimeIDs (regimes_of (Some componentClass))) [] "" true);
    Ok (SpineMLNeuronModel.mk
          (findModelVariables (Some componentClass) variableParams
             multipleRegimes).1
          (findModelVariables (Some componentClass) variableParams
             multipleRegimes).2
          (SpineMLNeuronModel.simCode s)
          (SpineMLNeuronModel.thresholdCondition s)).
Proof.
  intros Hcc Htype. unfold SpineMLNeuronModel.new.
  destruct (child (Some doc) "SpineML") as [root|] eqn:Hroot; [|done].
  cbn [is_null]. rewrite Hcc. cbn [is_null orb].
  fold (attr componentClass "type"). rewrite Htype.
  change (negb ("neuron_body" =? "neuron_body")%string) with false.
  cbn iota. unfold has_multiple_regimes, regimes_of.
  by destruct (findModelVariables _ _ _).
Qed.

(** C10, as the code has it.  When a neuron-body component has exactly
    one regime and one of its conditions does not target that regime, the
    constructor throws and gives no model.  The exception is the one about
    a single-regime condition that does not target itself when every
    condition of the regime has its trigger; a condition without trigger
    that comes first makes it the one about the missing trigger. *)
Theorem single_regime_condition_off_target url doc variableParams
    componentClass regime condition :
  child (child (Some doc) "SpineML") "ComponentClass" = Some componentClass →
  attr componentClass "type" = "neuron_body" →
  regimes_of (Some componentClass) = [regime] →
  condition ∈ kids_named regime "OnCondition" →
  attr condition "target_regime" ≠ attr regime "name" →
  ∃ what,
    SpineMLNeuronModel.new url (SpineMLNeuronModel.Loaded doc) variableParams
      = Err what ∧
    (what = SpineMLNeuronModel.not_self_target ∨
     what = SpineMLNeuronModel.no_trigger) ∧
    ((∀ c, c ∈ kids_named regime "OnCondition" → has_trigger c) →
     what = SpineMLNeuronModel.not_self_target).
Proof.
  intros Hcc Htype Hregimes Hcond Htarget.
  rewrite (new_loaded _ _ _ _ Hcc Htype).
  unfold has_multiple_regimes. rewrite Hregimes, single_regime_ids.
  rewrite map_size_singleton. simpl.
  set (s0 := SpineMLNeuronModel.mk_loop _ _ _ _).
  unfold SpineMLNeuronModel.regime_body at 1.
  destruct (for_each_Err
    (λ e, e = SpineMLNeuronModel.not_self_target ∨
          e = SpineMLNeuronModel.no_trigger)
    (SpineMLNeuronModel.condition_body false (attr regime "name"))
    (kids_named regime "OnCondition") condition s0 Hcond)
    as (what & Hrun & Hwhat).
  { intros y s _.
    pose proof (condition_body_single (attr regime "name") y s) as H.
    destruct (SpineMLNeuronModel.condition_body _ _ _ _); [done|]. tauto. }
  { intros s.
    pose proof (condition_body_single (attr regime "name") condition s) as H.
    destruct (SpineMLNeuronModel.condition_body _ _ _ _); tauto. }
  exists what. rewrite Hrun. simpl. split; [done|]. split; [done|].
  intros Hall.
  destruct (for_each_Err (λ e, e = SpineMLNeuronModel.not_self_target)
    (SpineMLNeuronModel.condition_body false (attr regime "name"))
    (kids_named regime "OnCondition") condition s0 Hcond)
    as (what' & Hrun' & Hwhat').
  { intros y s Hy.
    pose proof (condition_body_single (attr regime "name") y s) as H.
    destruct (SpineMLNeuronModel.condition_body _ _ _ _); [done|].
    destruct H as [[_ H]|[H _]]; [|done]. by destruct H; apply Hall. }
  { intros s.
    pose proof (condition_body_single (attr regime "name") condition s) as H.
    destruct (SpineMLNeuronModel.condition_body _ _ _ _); [tauto|].
    destruct H as [[_ H]|[H _]]; [|done]. by destruct H; apply Hall. }
  congruence.
Qed.

(** One regime A whose condition, with its trigger, targets B. *)
Lemma single_regime_condition_off_target_witness :
  child (child (Some (mk_document off_target_component)) "SpineML")
        "ComponentClass" = Some off_target_component ∧
  attr off_target_component "type" = "neuron_body" ∧
  regimes_of (Some off_target_component) = [off_target_regime] ∧
  off_target_condition ∈ kids_named off_target_regime "OnCondition" ∧
  attr off_target_condition "target_regime" ≠ attr off_target_regime "name" ∧
  ∃ what,
    SpineMLNeuronModel.new "model.xml"
      (SpineMLNeuronModel.Loaded (mk_document off_target_component)) ∅
      = Err what ∧
    (what = SpineMLNeuronModel.not_self_target ∨
     what = SpineMLNeuronModel.no_trigger) ∧
    ((∀ c, c ∈ kids_named off_target_regime "OnCondition" → has_trigger c) →
     what = SpineMLNeuronModel.not_self_target).
Proof.
  assert (child (child (Some (mk_document off_target_component)) "SpineML")
                "ComponentClass" = Some off_target_component) as H1
    by reflexivity.
  assert (attr off_target_component "type" = "neuron_body") as H2
    by reflexivity.
  assert (regimes_of (Some off_target_component) = [off_target_regime]) as H3
    by reflexivity.
  assert (off_target_condition ∈ kids_named off_target_regime "OnCondition")
    as H4 by (vm_compute; apply list_elem_of_here).
  assert (attr off_target_condition "target_regime"
          ≠ attr off_target_regime "name") as H5 by (vm_compute; congruence).
  repeat (split; [assumption|]).
  exact (single_regime_condition_off_target "model.xml"
           (mk_document off_target_component) ∅ off_target_component
           off_target_regime off_target_condition H1 H2 H3 H4 H5).
Defined.

(** C10, as the specification has it, fails: the condition targets B in
    the single regime A and has no Trigger, and the exception is the one
    about the missing trigger. *)
Lemma off_target_condition_without_trigger :
  SpineMLNeuronModel.new "model.xml"
    (SpineMLNeuronModel.Loaded (mk_document untriggered_component)) ∅
    = Err SpineMLNeuronModel.no_trigger ∧
  SpineMLNeuronModel.no_trigger ≠ SpineMLNeuronModel.not_self_target.
Proof. split; [by vm_compute|by vm_compute]. Qed.

(** C9, as the code has it.  The constructor throws when the
    ComponentClass node is missing or its type is not neuron_body, before
    anything is classified or generated.  A component without Dynamics is
    accepted: it is read as one without regimes and state variables, and
    gives a model with empty code; [generateModelCode] then returns false
    without a single call. *)
Theorem component_checked_dynamics_optional (url : string) (doc : xml_tree)
    (variableParams : gset string) :
  let spineML := child (Some doc) "SpineML" in
  let componentClass := child spineML "ComponentClass" in
  (∀ description,
     SpineMLNeuronModel.new url (SpineMLNeuronModel.LoadError description)
       variableParams
     = Err (SpineMLNeuronModel.cannot_open url description)) ∧
  (is_null spineML = true →
   SpineMLNeuronModel.new url (SpineMLNeuronModel.Loaded doc) variableParams
     = Err (SpineMLNeuronModel.no_root url)) ∧
  (is_null spineML = false →
   is_null componentClass = true
   ∨ attribute_value componentClass "type" ≠ "neuron_body" →
   SpineMLNeuronModel.new url (SpineMLNeuronModel.Loaded doc) variableParams
     = Err (SpineMLNeuronModel.wrong_component url)) ∧
  (is_null componentClass = false →
   attribute_value componentClass "type" = "neuron_body" →
   is_null (child componentClass "Dynamics") = true →
   SpineMLNeuronModel.new url (SpineMLNeuronModel.Loaded doc) variableParams
     = Ok (SpineMLNeuronModel.mk
             (filter (λ p, p ∉ variableParams)
                     (parameter_names componentClass))
             ((λ v, (v, "scalar")) <$> set_iter variableParams)
             [] "")) ∧
  (∀ cc : xml_node,
     is_null (child cc "Dynamics") = true →
     generateModelCode_log cc = Ok (false, [])).
Proof.
  intros spineML componentClass. split; [done|]. split; [|split; [|split]].
  - intros Hroot. unfold SpineMLNeuronModel.new. fold spineML.
    by rewrite Hroot.
  - intros Hroot Hbad. unfold SpineMLNeuronModel.new.
    fold spineML. rewrite Hroot. fold componentClass.
    destruct Hbad as [Hnull|Htype].
    + by rewrite Hnull.
    + destruct (String.eqb_spec (attribute_value componentClass "type")
                                "neuron_body") as [?|_]; [done|].
      by rewrite orb_true_r.
  - intros Hcc Htype Hdyn.
    destruct componentClass as [cc|] eqn:Hcomp; [|done].
    rewrite (new_loaded url doc variableParams cc Hcomp Htype).
    destruct (child (Some cc) "Dynamics") as [d|] eqn:Hd; [done|].
    unfold has_multiple_regimes, regimes_of, findModelVariables,
      parameter_names.
    rewrite Hd. done.
  - intros cc Hdyn. rewrite generateModelCode_log_calls.
    unfold has_multiple_regimes, model_calls, regimes_of.
    by destruct (child cc "Dynamics").
Qed.

(** C9, as the specification has it, fails: a neuron-body component
    without Dynamics is read without error. *)
Lemma missing_dynamics_is_accepted :
  is_null (child (Some no_dynamics_component) "Dynamics") = true ∧
  SpineMLNeuronModel.new "model.xml"
    (SpineMLNeuronModel.Loaded (mk_document no_dynamics_component)) ∅
    = Ok (SpineMLNeuronModel.mk ["tau"] [] [] "") ∧
  generateModelCode_log (Some no_dynamics_component) = Ok (false, []).
Proof. repeat split; vm_compute; reflexivity. Qed.

(** ** Regime guards in the two regime loops *)

Lemma guards_app a b : guards (a ++ b) = (guards a + guards b)%nat.
Proof. unfold guards. by rewrite filter_app, length_app. Qed.

Lemma guards_put os x :
  guards (os << x) = (guards os + if is_guard x then 1 else 0)%nat.
Proof.
  unfold put. rewrite guards_app. f_equal. unfold guards.
  destruct (is_guard x) eqn:Hx.
  - by rewrite filter_cons_True.
  - rewrite filter_cons_False; [done|]. by rewrite Hx.
Qed.

Lemma guards_guarded first id body : guards (guarded first id body) = 1%nat.
Proof. by destruct first. Qed.

Lemma guards_assemble multipleRegimes first (blocks : list (N * string)) :
  guards (assemble multipleRegimes first blocks)
  = if multipleRegimes
    then length (filter (λ block, block.2 ≠ "") blocks)
    else 0%nat.
Proof.
  revert first. induction blocks as [|[id body] blocks IH]; intros first.
  - by destruct multipleRegimes.
  - simpl. destruct (decide (body = "")) as [->|Hbody].
    + rewrite IH, filter_cons_False; [done|]. simpl. auto.
    + destruct multipleRegimes.
      * rewrite guards_app, guards_guarded, IH, filter_cons_True by done.
        done.
      * change (Text body :: assemble false first blocks)
          with ([Text body] ++ assemble false first blocks).
        by rewrite guards_app, IH.
Qed.

Lemma for_each_count {A S} (measure : S → nat) (k : nat)
    (body : A → S → result S) l :
  (∀ x s s', body x s = Ok s' → measure s' = (measure s + k)%nat) →
  ∀ s s', for_each body l s = Ok s' →
          measure s' = (measure s + k * length l)%nat.
Proof.
  intros Hbody. induction l as [|x l IH]; intros s s'; simpl.
  - intros [= <-]. lia.
  - destruct (body x s) as [s1|e] eqn:Hx; simpl; [|done]. intros Hl.
    rewrite (IH _ _ Hl), (Hbody _ _ _ Hx). lia.
Qed.

Lemma state_assignments_guards (assigns : list xml_tree) (sim : code) :
  guards
    (foldl (λ sim stateAssign,
              sim << Text (attr stateAssign "variable") << Text " = "
                  << Text (child_value (Some stateAssign) "MathInline")
                  << Text ";" << ENDL)
           sim assigns)
  = guards sim.
Proof.
  revert sim. induction assigns as [|a assigns IH]; intros sim; [done|].
  simpl. rewrite IH, !guards_put. simpl. lia.
Qed.

Lemma condition_body_guards multipleRegimes regimeName condition s s' :
  SpineMLNeuronModel.condition_body multipleRegimes regimeName condition s
    = Ok s' →
  guards (SpineMLNeuronModel.simCode s')
  = (guards (SpineMLNeuronModel.simCode s) + 0)%nat.
Proof.
  unfold SpineMLNeuronModel.condition_body.
  destruct (is_null _); [done|].
  match goal with
  | |- context [foldl ?f ?sim0 ?l] =>
      pose proof (state_assignments_guards l sim0) as Hfold;
      set (sim1 := foldl f sim0 l) in *
  end.
  rewrite !guards_put in Hfold. simpl in Hfold.
  destruct multipleRegimes.
  - destruct (map_index _ _) as [tgt ids]. simpl.
    destruct (SpineMLNeuronModel.emits_spike condition);
      [destruct (map_index ids regimeName)|];
      intros [= <-]; simpl; unfold put_unsigned; rewrite !guards_put;
      simpl; lia.
  - destruct (negb _); [done|]. simpl.
    destruct (SpineMLNeuronModel.emits_spike condition);
      [destruct (map_index _ regimeName)|];
      intros [= <-]; simpl; rewrite !guards_put; simpl; lia.
Qed.

Lemma regime_body_guards multipleRegimes regime s s' :
  SpineMLNeuronModel.regime_body multipleRegimes regime s = Ok s' →
  guards (SpineMLNeuronModel.simCode s')
  = (guards (SpineMLNeuronModel.simCode s)
     + if multipleRegimes then 1 else 0)%nat.
Proof.
  unfold SpineMLNeuronModel.regime_body.
  match goal with
  | |- mbind _ (for_each ?b ?l ?s0) = _ → _ =>
      pose proof (for_each_count
                    (λ s, guards (SpineMLNeuronModel.simCode s)) 0 b l
                    (condition_body_guards _ _) s0) as Hloop;
      destruct (for_each b l s0) as [s1|e]
  end; simpl; [|done].
  specialize (Hloop s1 eq_refl). cbv beta in Hloop.
  intros [= <-]. cbn [SpineMLNeuronModel.simCode].
  destruct (is_null (child (Some regime) "TimeDerivative")),
    multipleRegimes; rewrite ?guards_put, Hloop; cbn [is_guard];
    try (destruct (SpineMLNeuronModel.firstRegime s), (map_index _ _);
         cbn [SpineMLNeuronModel.simCode]; unfold put_unsigned;
         rewrite !guards_put; cbn [is_guard]);
    simpl; lia.
Qed.

(** The regime flag tells whether the Regime nodes bear more than one
    distinct name. *)
Lemma has_multiple_regimes_distinct_names (componentClass : xml_node) :
  N.of_nat (length (regimes_of componentClass)) < 2 ^ 32 →
  has_multiple_regimes componentClass
  = bool_decide
      (1 < length (first_seen (regime_names (regimes_of componentClass))))%nat.
Proof.
  intros Hlen. unfold has_multiple_regimes.
  by destruct (build_regimeIDs_table _ Hlen) as [-> _].
Qed.




(** The neuron-model constructor has no buffer per regime: with several
    regimes it writes the guard of every regime, whether the regime has
    code or not. *)
Lemma neuron_model_guards_every_regime :
  SpineMLNeuronModel.new "model.xml"
    (SpineMLNeuronModel.Loaded (mk_document regimeID_component)) ∅
  = Ok (SpineMLNeuronModel.mk ["tau"; "_regimeID"]
          [("V", "scalar"); ("_regimeID", "unsigned int")]
          [Text "if(_regimeID == "; Text "0"; Text ")"; OB 1; CB 1;
           Text "else "; Text "if(_regimeID == "; Text "1"; Text ")"; OB 1;
           CB 1]
          "").
Proof. vm_compute. reflexivity. Qed.
(** ** More on token substitution *)

Lemma match_name_Some name s rest :
  match_name name s = Some rest → s = name +:+ rest.
Proof.
  revert s. induction name as [|a name IH]; intros s H; simpl in H.
  - by injection H as ->.
  - destruct s as [|c s]; [done|].
    destruct (Ascii.eqb_spec a c) as [->|]; [|done].
    rewrite append_cons. f_equal. by apply IH.
Qed.

Lemma prefix_append name rest : String.prefix name (name +:+ rest) = true.
Proof.
  induction name as [|a name IH]; [by destruct rest|].
  rewrite append_cons. simpl. by destruct (ascii_dec a a).
Qed.

Lemma match_name_prefix name s rest :
  match_name name s = Some rest → String.prefix name s = true.
Proof. intros ->%match_name_Some. apply prefix_append. Qed.

Lemma match_tail_prefix name s g2 :
  match_tail name s = Some g2 → String.prefix name s = true.
Proof.
  unfold match_tail. destruct (match_name name s) eqn:H; [|done].
  intros _. by eapply match_name_prefix.
Qed.

Lemma find_None_cons c hay needle :
  find (String c hay) needle = None →
  String.prefix needle (String c hay) = false ∧ find hay needle = None.
Proof.
  cbn [find]. destruct (String.prefix needle (String c hay)); [done|].
  by destruct (find hay needle).
Qed.

Lemma regex_replace_absent name repl bol code :
  find code name = None → regex_replace name repl bol 0 code = code.
Proof.
  revert bol. induction code as [|c code IH]; intros bol Hfind.
  - assert (match_here bol name "" = None) as Hm.
    { unfold match_here. destruct bol; [|done].
      destruct (match_tail name "") eqn:Ht; [|done].
      apply match_tail_prefix in Ht. cbn [find] in Hfind.
      by rewrite Ht in Hfind. }
    simpl. by rewrite Hm.
  - apply find_None_cons in Hfind as [Hhere Hrest].
    rewrite regex_replace_no_match; [by rewrite IH|].
    unfold match_here.
    assert (match_tail name (String c code) = None) as ->.
    { destruct (match_tail name (String c code)) eqn:Ht; [|done].
      apply match_tail_prefix in Ht. congruence. }
    assert (match_tail name code = None) as ->.
    { destruct (match_tail name code) eqn:Ht; [|done].
      apply match_tail_prefix in Ht.
      destruct code; cbn [find] in Hrest; by rewrite Ht in Hrest. }
    by destruct bol, (boundary c).
Qed.

(** X1. A code text in which the variable name does not occur is left as it
    is. *)
Theorem wrap_absent_name_unchanged (code variableName replaceVariableName : string) :
  is_identifier variableName = true →
  contains code variableName = false →
  wrapAndReplaceVariableNames code variableName replaceVariableName = code.
Proof.
  intros _ Hc. apply regex_replace_absent.
  unfold contains in Hc. apply bool_decide_eq_false in Hc.
  by apply eq_None_not_Some.
Qed.

(** The text "x + 1" and the name V. *)
Lemma wrap_absent_name_unchanged_witness :
  is_identifier "V" = true ∧ contains "x + 1" "V" = false ∧
  wrapAndReplaceVariableNames "x + 1" "V" "V_NB" = "x + 1".
Proof.
  assert (is_identifier "V" = true) as H1 by reflexivity.
  assert (contains "x + 1" "V" = false) as H2 by reflexivity.
  split; [exact H1|]. split; [exact H2|].
  exact (wrap_absent_name_unchanged "x + 1" "V" "V_NB" H1 H2).
Defined.

Lemma all_chars_append p a b :
  all_chars p (a +:+ b) = all_chars p a && all_chars p b.
Proof.
  induction a as [|c a IH]; [done|]. rewrite append_cons. simpl.
  by rewrite IH, andb_assoc.
Qed.

Lemma match_here_word bol name s :
  all_chars in_name_class s = true →
  (bol = true → s ≠ name) →
  match_here bol name s = None.
Proof.
  intros Hs Hne. unfold match_here.
  assert ((if bol then match_tail name s else None) = None) as ->.
  { destruct bol; [|done]. unfold match_tail.
    destruct (match_name name s) as [rest|] eqn:Hm; [|done]. simpl.
    apply match_name_Some in Hm. subst s.
    rewrite all_chars_append in Hs. apply andb_prop in Hs as [_ Hrest].
    destruct rest as [|c rest].
    - rewrite append_empty_r in Hne. by destruct Hne.
    - simpl in *. apply andb_prop in Hrest as [Hc _].
      unfold boundary. by rewrite Hc. }
  destruct s as [|c s]; [done|]. simpl in Hs.
  apply andb_prop in Hs as [Hc _]. unfold boundary. by rewrite Hc.
Qed.

Lemma regex_replace_word name repl bol s :
  all_chars in_name_class s = true →
  (bol = true → s ≠ name) →
  regex_replace name repl bol 0 s = s.
Proof.
  revert bol. induction s as [|c s IH]; intros bol Hs Hne.
  - simpl. by rewrite (match_here_word bol name "").
  - rewrite regex_replace_no_match by by apply match_here_word.
    f_equal. apply IH; [|done]. simpl in Hs. by apply andb_prop in Hs as [_ ?].
Qed.

(** X2. A text made of letters and underscores only, other than the name
    itself, is left as it is: the name inside a longer word is not an
    occurrence. *)
Theorem wrap_inside_word_unchanged (code variableName replaceVariableName : string) :
  is_identifier variableName = true →
  all_chars in_name_class code = true →
  code ≠ variableName →
  wrapAndReplaceVariableNames code variableName replaceVariableName = code.
Proof. intros _ Hs Hne. by apply regex_replace_word. Qed.

(** The word "tauV" and the name V. *)
Lemma wrap_inside_word_unchanged_witness :
  is_identifier "V" = true ∧ all_chars in_name_class "tauV" = true ∧
  "tauV" ≠ "V" ∧
  wrapAndReplaceVariableNames "tauV" "V" "V_NB" = "tauV".
Proof.
  assert (is_identifier "V" = true) as H1 by reflexivity.
  assert (all_chars in_name_class "tauV" = true) as H2 by reflexivity.
  assert ("tauV" ≠ "V") as H3 by discriminate.
  split; [exact H1|]. split; [exact H2|]. split; [exact H3|].
  exact (wrap_inside_word_unchanged "tauV" "V" "V_NB" H1 H2 H3).
Defined.

(** X3. For a replacement name without a dollar sign, a text that is the
    bare name becomes the token of the replacement name. *)
Theorem wrap_bare_name (variableName replaceVariableName : string) :
  is_identifier variableName = true →
  dollar_free replaceVariableName = true →
  wrapAndReplaceVariableNames variableName variableName replaceVariableName
  = "$(" +:+ replaceVariableName +:+ ")".
Proof.
  intros Hid _. destruct variableName as [|a n]; [done|].
  unfold wrapAndReplaceVariableNames.
  rewrite (regex_replace_match _ _ _ _ _ "" "").
  - rewrite regex_replace_skip_all by (simpl; lia).
    unfold format. by rewrite !append_empty_l, !append_empty_r.
  - unfold match_here, match_tail. by rewrite match_name_self.
Qed.

Lemma wrap_bare_name_witness :
  is_identifier "I" = true ∧ dollar_free "I_NB" = true ∧
  wrapAndReplaceVariableNames "I" "I" "I_NB" = "$(I_NB)".
Proof.
  assert (is_identifier "I" = true) as H1 by reflexivity.
  assert (dollar_free "I_NB" = true) as H2 by reflexivity.
  split; [exact H1|]. split; [exact H2|].
  exact (wrap_bare_name "I" "I_NB" H1 H2).
Defined.

(** X4. Wrapping a name never shortens the text, and a text of the same
    length is the same text. *)
Theorem wrap_never_shortens (code variableName : string) :
  is_identifier variableName = true →
  (String.length code ≤ String.length (wrapVariableNames code variableName))%nat ∧
  (String.length (wrapVariableNames code variableName) = String.length code
   ↔ wrapVariableNames code variableName = code).
Proof.
  intros _. unfold wrapVariableNames, wrapAndReplaceVariableNames.
  pose proof (wrap_length_ge variableName true 0 code) as Hge.
  split; [lia|]. split.
  - intros Hlen. apply (wrap_same_length variableName true 0). lia.
  - by intros ->.
Qed.

Lemma wrap_never_shortens_witness :
  is_identifier "V" = true ∧
  (String.length "V + 1" ≤ String.length (wrapVariableNames "V + 1" "V"))%nat.
Proof.
  assert (is_identifier "V" = true) as H1 by reflexivity.
  split; [exact H1|]. exact (proj1 (wrap_never_shortens "V + 1" "V" H1)).
Defined.
(** ** Substitution over several code strings *)

Lemma wrap_each_lookup name codeStrings mem i :
  wrap_each name codeStrings mem !! i
  = Nat.iter (occurrences i codeStrings)
             (λ code, wrapVariableNames code name) <$> mem !! i.
Proof.
  revert mem. induction codeStrings as [|c cs IH]; intros mem.
  - simpl. by destruct (mem !! i).
  - unfold wrap_each in *. simpl. rewrite IH. unfold wrap_in_place, occurrences.
    destruct (decide (c = i)) as [->|Hne].
    + rewrite filter_cons_True by done. rewrite list_lookup_alter_eq.
      destruct (mem !! i) as [s|]; [|done].
      cbn [fmap option_fmap option_map length]. by rewrite Nat.iter_succ_r.
    + rewrite filter_cons_False by done. by rewrite list_lookup_alter_ne.
Qed.

Lemma wrap_names_lookup names codeStrings mem i :
  foldl (λ mem p, wrap_each p codeStrings mem) mem names !! i
  = wrap_names (occurrences i codeStrings) names <$> mem !! i.
Proof.
  revert mem. induction names as [|n names IH]; intros mem.
  - simpl. by destruct (mem !! i).
  - simpl. rewrite IH, wrap_each_lookup. by destruct (mem !! i).
Qed.

Lemma wrap_names_app times names1 names2 code :
  wrap_names times (names1 ++ names2) code
  = wrap_names times names2 (wrap_names times names1 code).
Proof. unfold wrap_names. by rewrite foldl_app. Qed.

Lemma foldl_vars_names codeStrings (vars : list (string * string)) mem :
  foldl (λ mem v, wrap_each v.1 codeStrings mem) mem vars
  = foldl (λ mem p, wrap_each p codeStrings mem) mem vars.*1.
Proof.
  revert mem. induction vars as [|v vars IH]; intros mem; [done|].
  simpl. by rewrite IH.
Qed.

Lemma occurrences_absent i (codeStrings : list nat) :
  i ∉ codeStrings → occurrences i codeStrings = 0%nat.
Proof.
  unfold occurrences. induction codeStrings as [|c cs IH]; [done|].
  intros [Hne Hi]%not_elem_of_cons.
  rewrite filter_cons_False by done. by apply IH.
Qed.

Lemma occurrences_once i (codeStrings : list nat) :
  NoDup codeStrings → i ∈ codeStrings → occurrences i codeStrings = 1%nat.
Proof.
  unfold occurrences. induction 1 as [|c cs Hc Hnd IH]; [by intros ?%elem_of_nil|].
  intros [->|Hi]%elem_of_cons.
  - rewrite filter_cons_True by done. simpl. f_equal.
    by apply occurrences_absent.
  - rewrite filter_cons_False; [by apply IH|]. intros ->. done.
Qed.

Lemma wrap_names_zero names code : wrap_names 0 names code = code.
Proof. unfold wrap_names. induction names as [|n names IH]; [done|]. done. Qed.

Lemma substituteModelVariables_lookup (paramNames : list string)
    (vars : list (string * string)) (ports : list string)
    (codeStrings : list nat) (mem : list string) i :
  substituteModelVariables_ports paramNames vars ports codeStrings mem !! i
  = wrap_names (occurrences i codeStrings) (paramNames ++ vars.*1 ++ ports)
      <$> mem !! i.
Proof.
  unfold substituteModelVariables_ports, substituteModelVariables.
  rewrite wrap_names_lookup, foldl_vars_names, !wrap_names_lookup.
  destruct (mem !! i); [|done]. simpl. by rewrite !wrap_names_app.
Qed.

(** X5. For names that are identifiers, every code string is rewritten on
    its own: the string behind a pointer is wrapped for the parameter
    names, then the variable names, then the port names, in this order,
    once per name for each time the pointer occurs among the code strings;
    strings that are not pointed to stay as they are, and no string is
    added or removed. *)
Theorem substituteModelVariables_per_string (paramNames : list string)
    (vars : list (string * string)) (ports : list string)
    (codeStrings : list nat) (mem : list string) :
  Forall (λ name, is_identifier name = true)
         (paramNames ++ vars.*1 ++ ports) →
  let mem' :=
    substituteModelVariables_ports paramNames vars ports codeStrings mem in
  length mem' = length mem ∧
  (∀ i, mem' !! i
        = wrap_names (occurrences i codeStrings)
                     (paramNames ++ vars.*1 ++ ports) <$> mem !! i) ∧
  (∀ i, i ∉ codeStrings → mem' !! i = mem !! i) ∧
  (∀ i, NoDup codeStrings → i ∈ codeStrings →
        mem' !! i = wrap_names 1 (paramNames ++ vars.*1 ++ ports) <$> mem !! i) ∧
  substituteModelVariables paramNames vars codeStrings mem
  = substituteModelVariables_ports paramNames vars [] codeStrings mem.
Proof.
  intros _ mem'.
  pose proof (substituteModelVariables_lookup paramNames vars ports
                codeStrings mem) as Hlookup.
  fold mem' in Hlookup.
  split; [|split; [done|split; [|split]]].
  - destruct (decide (length mem' = length mem)) as [|Hne]; [done|].
    exfalso. destruct (Nat.lt_ge_cases (length mem') (length mem)) as [Hlt|Hge].
    + pose proof (lookup_ge_None_2 mem' (length mem') (Nat.le_refl _)) as Hn.
      rewrite Hlookup in Hn.
      destruct (lookup_lt_is_Some_2 mem _ Hlt) as [x Hx].
      by rewrite Hx in Hn.
    + assert (length mem < length mem')%nat as Hlt by lia.
      destruct (lookup_lt_is_Some_2 mem' _ Hlt) as [x Hx].
      rewrite Hlookup in Hx.
      by rewrite (lookup_ge_None_2 mem (length mem)) in Hx.
  - intros i Hi. rewrite Hlookup, occurrences_absent by done.
    destruct (mem !! i); [|done]. simpl. by rewrite wrap_names_zero.
  - intros i Hnd Hi. by rewrite Hlookup, occurrences_once.
  - done.
Qed.

(** Two code strings out of three, the first of them listed twice. *)
Lemma substituteModelVariables_per_string_witness :
  let mem := ["V + tau"; "I"; "x"] in
  let mem' :=
    substituteModelVariables_ports ["tau"] [("V", "scalar")] ["I"]
      [0; 0; 1]%nat mem in
  Forall (λ name, is_identifier name = true)
         (["tau"] ++ [("V", "scalar")].*1 ++ ["I"]) ∧
  length mem' = length mem ∧
  ∀ i, i ∉ [0; 0; 1]%nat → mem' !! i = mem !! i.
Proof.
  intros mem mem'.
  assert (Forall (λ name, is_identifier name = true)
                 (["tau"] ++ [("V", "scalar")].*1 ++ ["I"])) as H
    by (repeat constructor).
  split; [exact H|].
  destruct (substituteModelVariables_per_string ["tau"] [("V", "scalar")]
              ["I"] [0; 0; 1]%nat mem H) as (Hlen & _ & Hout & _).
  split; [exact Hlen|exact Hout].
Defined.

Lemma wrap_iter_absent times name code :
  is_identifier name = true → contains code name = false →
  Nat.iter times (λ code, wrapVariableNames code name) code = code.
Proof.
  intros Hid Hc. induction times as [|k IHk]; [done|]. simpl. rewrite IHk.
  unfold wrapVariableNames, wrapAndReplaceVariableNames.
  apply regex_replace_absent.
  unfold contains in Hc. apply bool_decide_eq_false in Hc.
  by apply eq_None_not_Some.
Qed.

Lemma wrap_names_absent times names code :
  (∀ name, name ∈ names →
           is_identifier name = true ∧ contains code name = false) →
  wrap_names times names code = code.
Proof.
  unfold wrap_names. induction names as [|n names IH]; intros H; [done|].
  simpl. destruct (H n (list_elem_of_here _ _)) as [Hid Hc].
  rewrite wrap_iter_absent by done.
  apply IH. intros name Hname. apply H. by apply list_elem_of_further.
Qed.

(** X6. [processModelVariables] returns the classification of
    [findModelVariables], and a code string that contains none of the
    classified parameter and variable names comes out as it went in. *)
Theorem processModelVariables_untouched (componentClass : xml_node)
    (variableParams : gset string) (multipleRegimes : bool)
    (codeStrings : list nat) (mem : list string) (i : nat) (code : string) :
  mem !! i = Some code →
  (∀ name,
     name ∈ (findModelVariables componentClass variableParams
               multipleRegimes).1
            ++ (findModelVariables componentClass variableParams
                  multipleRegimes).2.*1 →
     is_identifier name = true ∧ contains code name = false) →
  let r := processModelVariables componentClass variableParams
             multipleRegimes codeStrings mem in
  r.1 = findModelVariables componentClass variableParams multipleRegimes ∧
  r.2 !! i = Some code.
Proof.
  intros Hi Hnames r. split; [done|]. unfold r, processModelVariables.
  cbn [snd].
  change (substituteModelVariables ?p ?v codeStrings mem)
    with (substituteModelVariables_ports p v [] codeStrings mem).
  rewrite substituteModelVariables_lookup, Hi. simpl. f_equal. rewrite app_nil_r.
  by apply wrap_names_absent.
Qed.

(** The code string "x + 1" behind pointer 0, for the sample component,
    whose names are tau, V and _regimeID. *)
Lemma processModelVariables_untouched_witness :
  ["x + 1"] !! 0%nat = Some "x + 1" ∧
  (processModelVariables (Some ghost_component) ∅ true [0%nat] ["x + 1"]).2
    !! 0%nat = Some "x + 1".
Proof.
  assert (["x + 1"] !! 0%nat = Some "x + 1") as H1 by reflexivity.
  assert (∀ name,
     name ∈ (findModelVariables (Some ghost_component) ∅ true).1
            ++ (findModelVariables (Some ghost_component) ∅ true).2.*1 →
     is_identifier name = true ∧ contains "x + 1" name = false) as H2.
  { intros name Hname.
    assert ((findModelVariables (Some ghost_component) ∅ true).1
            ++ (findModelVariables (Some ghost_component) ∅ true).2.*1
            = ["tau"; "V"; "_regimeID"]) as Heq by (vm_compute; reflexivity).
    rewrite Heq in Hname.
    repeat (apply elem_of_cons in Hname as [->|Hname]; [by vm_compute|]).
    by apply elem_of_nil in Hname. }
  split; [exact H1|].
  exact (proj2 (processModelVariables_untouched (Some ghost_component) ∅ true
                  [0%nat] ["x + 1"] 0%nat "x + 1" H1 H2)).
Defined.

(** ** The order of parameters and variables *)

Lemma set_iter_sorted (s : gset string) :
  Sorted String.le (set_iter s) ∧ NoDup (set_iter s).
Proof.
  unfold set_iter. split.
  - apply (Sorted_merge_sort String.le).
  - rewrite merge_sort_Permutation. apply NoDup_elements.
Qed.

(** X7. The free parameters keep the document order of their Parameter
    nodes.  The variable list is the caller's variable names and the
    StateVariable names, each once, in ascending order of the names, as
    scalars; [_regimeID] follows as last entry exactly for a component with
    several regimes. *)
Theorem findModelVariables_order (componentClass : xml_node)
    (variableParams : gset string) (multipleRegimes : bool) :
  let r := findModelVariables componentClass variableParams multipleRegimes in
  r.1 `sublist_of` parameter_names componentClass ∧
  ∃ names,
    r.2 = ((λ v, (v, "scalar")) <$> names)
          ++ (if multipleRegimes then [("_regimeID", "unsigned int")] else []) ∧
    Sorted String.le names ∧ NoDup names ∧
    (∀ x, x ∈ names
          ↔ x ∈ variableParams ∨ x ∈ state_variable_names componentClass) ∧
    (∀ x, x ∈ names → x ∉ r.1).
Proof.
  intros r. unfold r, findModelVariables. cbn [fst snd].
  set (G := foldl _ variableParams _).
  split; [apply sublist_filter|].
  exists (set_iter G). destruct (set_iter_sorted G) as [Hs Hn].
  split; [|split; [done|split; [done|split]]].
  - destruct multipleRegimes; [done|by rewrite app_nil_r].
  - intros x. rewrite set_iter_elem. apply gennVariables_elem.
  - intros x Hx. rewrite set_iter_elem in Hx.
    rewrite list_elem_of_filter. tauto.
Qed.

(** ** [SpineMLNeuronModel::ParamValues::getValues] in general *)

Lemma map_iter_spec {V} (m : gmap string V) :
  map_iter m ≡ₚ map_to_list m ∧ Sorted String.le (map_iter m).*1.
Proof.
  unfold map_iter. split; [apply merge_sort_Permutation|].
  apply (Sorted_fmap fst (λ a b : string * V, String.le a.1 b.1)); [done|].
  apply (Sorted_merge_sort (λ a b : string * V, String.le a.1 b.1)
           (Total0 := λ a b, total String.le a.1 b.1)).
Qed.

(** X8. The nested resolver returns the values of its map, one per key, in
    ascending order of the keys. *)
Theorem neuron_ParamValues_getValues_by_key
    (pv : SpineMLNeuronModel.ParamValues.t) :
  let m := SpineMLNeuronModel.ParamValues.m_Values pv in
  length (SpineMLNeuronModel.ParamValues.getValues pv) = size m ∧
  ∃ keys,
    Sorted String.le keys ∧ NoDup keys ∧
    (∀ k, k ∈ keys ↔ is_Some (m !! k)) ∧
    SpineMLNeuronModel.ParamValues.getValues pv
    = (λ k, default double_zero (m !! k)) <$> keys.
Proof.
  intros m. unfold SpineMLNeuronModel.ParamValues.getValues. fold m.
  destruct (map_iter_spec m) as [Hperm Hsorted].
  split.
  - rewrite length_fmap, Hperm. apply length_map_to_list.
  - exists (map_iter m).*1. split; [done|]. split; [|split].
    + rewrite Hperm. apply NoDup_fst_map_to_list.
    + intros k. rewrite Hperm, list_elem_of_fmap. split.
      * intros ([k' v] & -> & Hkv). apply elem_of_map_to_list in Hkv. eauto.
      * intros [v Hv]. exists (k, v). split; [done|].
        by apply elem_of_map_to_list.
    + rewrite <- list_fmap_compose. apply list_fmap_ext.
      intros i [k v] Hi. simpl.
      assert ((k, v) ∈ map_to_list m) as Hkv.
      { rewrite <- Hperm. by eapply list_elem_of_lookup_2. }
      apply elem_of_map_to_list in Hkv. by rewrite Hkv.
Qed.

(** ** More on the calls of [generateModelCode] *)

Lemma build_regimeIDs_lookup_is_Some (regimes : list xml_tree) name :
  name ∈ regime_names regimes → is_Some (build_regimeIDs regimes !! name).
Proof.
  unfold build_regimeIDs. generalize (∅ : gmap string N).
  assert (∀ (l : list xml_tree) (m : gmap string N),
            is_Some (m !! name) →
            is_Some (foldl (λ m n, map_insert m (attr n "name")
                                     (to_unsigned (N.of_nat (size m))))
                           m l !! name)) as Hkeep.
  { induction l as [|r l IH]; intros m Hm; [done|]. simpl. apply IH.
    unfold map_insert. destruct (m !! attr r "name") eqn:Hr; [done|].
    destruct (decide (attr r "name" = name)) as [->|Hne].
    - by rewrite lookup_insert_eq.
    - by rewrite lookup_insert_ne. }
  induction regimes as [|r regimes IH]; intros m Hname.
  - by apply elem_of_nil in Hname.
  - simpl in *. apply elem_of_cons in Hname as [->|Hname]; [|by apply IH].
    apply Hkeep. unfold map_insert.
    destruct (m !! attr r "name") eqn:Hr; [by rewrite Hr|].
    by rewrite lookup_insert_eq.
Qed.

(** X9. A transition whose target_regime names a Regime of the component is
    handed to its handler with the table's ID of the regime it stands in
    and the table's ID of the regime it names. *)
Theorem known_target_regime_gets_its_ID (componentClass : xml_node) :
  ∃ calls,
    generateModelCode_log componentClass
      = Ok (has_multiple_regimes componentClass, calls) ∧
    ∀ regime h tagname node,
      regime ∈ regimes_of componentClass →
      (h, tagname) ∈ [(hCondition, "OnCondition"); (hEvent, "OnEvent");
                      (hImpulse, "OnImpulse")] →
      node ∈ kids_named regime tagname →
      attr node "target_regime" ∈ regime_names (regimes_of componentClass) →
      ∃ cur tgt,
        build_regimeIDs (regimes_of componentClass) !! attr regime "name"
          = Some cur ∧
        build_regimeIDs (regimes_of componentClass)
          !! attr node "target_regime" = Some tgt ∧
        OnObject h node cur tgt ∈ calls.
Proof.
  exists (model_calls componentClass).
  split; [apply generateModelCode_log_calls|].
  intros regime h tagname node Hr Hk Hn Hknown.
  set (ids := build_regimeIDs (regimes_of componentClass)).
  assert (attr regime "name" ∈ regime_names (regimes_of componentClass))
    as Hname
    by (unfold regime_names; by apply (list_elem_of_fmap_2 (λ r, attr r "name"))).
  apply build_regimeIDs_lookup_is_Some in Hname as [cur Hcur].
  apply build_regimeIDs_lookup_is_Some in Hknown as [tgt Htgt].
  exists cur, tgt. split; [done|]. split; [done|].
  apply (regime_calls_in_model_calls _ regime); [done|].
  assert (regime_id ids (attr regime "name") = cur) as Hc.
  { unfold regime_id, ids. by rewrite Hcur. }
  assert (regime_id ids (attr node "target_regime") = tgt) as Ht.
  { unfold regime_id, ids. by rewrite Htgt. }
  fold ids. unfold regime_calls, object_calls, transition_calls.
  rewrite Hc. rewrite !elem_of_app, !list_elem_of_fmap.
  rewrite !elem_of_cons in Hk.
  destruct Hk as [[= -> ->]|[[= -> ->]|[[= -> ->]|Hk]]];
    [| | |by apply elem_of_nil in Hk].
  - left. left. exists node. by rewrite Ht.
  - left. right. left. exists node. by rewrite Ht.
  - left. right. right. left. exists node. by rewrite Ht.
Qed.

Lemma filter_regime_end_object_calls ids regime :
  filter (λ c, is_regime_end c = true) (object_calls ids regime) = [].
Proof.
  pose proof (object_calls_no_regime_end ids regime) as H.
  induction H as [|c l Hc _ IH]; [done|].
  rewrite filter_cons_False; [done|].
  destruct c as [? ? ? ?|m cur]; [done|]. by destruct (Hc m cur).
Qed.

(** X10. The regime-end callback is called once per Regime node, in document
    order, each time with the regime flag of the component and the ID of
    that regime, and behind all handler calls for the nodes of that
    regime. *)
Theorem regime_end_once_per_regime (componentClass : xml_node) :
  let ids := build_regimeIDs (regimes_of componentClass) in
  let flag := has_multiple_regimes componentClass in
  ∃ calls,
    generateModelCode_log componentClass = Ok (flag, calls) ∧
    calls = mjoin ((λ regime,
                      object_calls ids regime
                      ++ [RegimeEnd flag (regime_id ids (attr regime "name"))])
                   <$> regimes_of componentClass) ∧
    filter (λ c, is_regime_end c = true) calls
    = (λ regime, RegimeEnd flag (regime_id ids (attr regime "name")))
        <$> regimes_of componentClass.
Proof.
  intros ids flag. exists (model_calls componentClass).
  split; [apply generateModelCode_log_calls|]. split; [done|].
  unfold model_calls. fold ids flag. clearbody ids flag.
  induction (regimes_of componentClass) as [|r regimes IH]; [done|].
  change (mjoin (regime_calls ids flag <$> r :: regimes))
    with (regime_calls ids flag r ++ mjoin (regime_calls ids flag <$> regimes)).
  unfold regime_calls at 1.
  rewrite !filter_app, filter_regime_end_object_calls, IH. done.
Qed.

(** ** More on the neuron-model constructor *)

Lemma for_each_is_Ok {A S} (P : A → Prop) (body : A → S → result S) l :
  (∀ x s, x ∈ l → is_Ok (body x s) ↔ P x) →
  ∀ s, is_Ok (for_each body l s) ↔ Forall P l.
Proof.
  induction l as [|x l IH]; intros Hbody s.
  - split; [constructor|by exists s].
  - simpl. rewrite Forall_cons.
    destruct (body x s) as [s'|e] eqn:Hx; simpl.
    + rewrite IH; [|intros y s0 Hy; apply Hbody; by right].
      rewrite <- (Hbody x s (list_elem_of_here _ _)), Hx.
      split; [intros ?; split; [by eexists|done]|tauto].
    + rewrite <- (Hbody x s (list_elem_of_here _ _)), Hx.
      split; [by intros [? ?]|by intros [[? ?] _]].
Qed.

Lemma condition_body_is_Ok multipleRegimes regimeName condition s :
  is_Ok (SpineMLNeuronModel.condition_body multipleRegimes regimeName
           condition s)
  ↔ has_trigger condition ∧
    (multipleRegimes = false → attr condition "target_regime" = regimeName).
Proof.
  unfold SpineMLNeuronModel.condition_body, has_trigger.
  destruct (is_null _) eqn:Hnull.
  { split; [by intros [? ?]|by intros [? _]]. }
  destruct multipleRegimes.
  - destruct (map_index _ _) as [tgt ids]. simpl.
    destruct (SpineMLNeuronModel.emits_spike condition).
    + destruct (map_index ids regimeName).
      split; [done|intros _; by eexists].
    + split; [done|intros _; by eexists].
  - destruct (String.eqb_spec (attr condition "target_regime") regimeName)
      as [Heq|Hne]; simpl.
    + destruct (SpineMLNeuronModel.emits_spike condition).
      * destruct (map_index _ regimeName).
        split; [done|intros _; by eexists].
      * split; [done|intros _; by eexists].
    + split; [by intros [? ?]|intros [_ H]; by destruct (Hne (H eq_refl))].
Qed.

Lemma regime_body_is_Ok multipleRegimes regime s :
  is_Ok (SpineMLNeuronModel.regime_body multipleRegimes regime s)
  ↔ Forall (λ condition,
              has_trigger condition ∧
              (multipleRegimes = false →
               attr condition "target_regime" = attr regime "name"))
           (kids_named regime "OnCondition").
Proof.
  unfold SpineMLNeuronModel.regime_body.
  match goal with
  | |- is_Ok (mbind _ (for_each ?b ?l ?s0)) ↔ _ =>
      rewrite <- (for_each_is_Ok _ b l
                    (λ x s1 _, condition_body_is_Ok _ _ x s1) s0);
      destruct (for_each b l s0) as [s1|e]
  end; simpl.
  - split; intros _; by eexists.
  - split; by intros [? ?].
Qed.

(** X11. The constructor succeeds on a neuron-body component exactly when
    every condition of every regime has a trigger and, in a model that
    does not have several regimes, names its own regime as target. *)
Theorem new_succeeds_iff url doc variableParams componentClass :
  child (child (Some doc) "SpineML") "ComponentClass" = Some componentClass →
  attr componentClass "type" = "neuron_body" →
  is_Ok (SpineMLNeuronModel.new url (SpineMLNeuronModel.Loaded doc)
           variableParams)
  ↔ ∀ regime condition,
      regime ∈ regimes_of (Some componentClass) →
      condition ∈ kids_named regime "OnCondition" →
      has_trigger condition ∧
      (has_multiple_regimes (Some componentClass) = false →
       attr condition "target_regime" = attr regime "name").
Proof.
  intros Hcc Htype. rewrite (new_loaded _ _ _ _ Hcc Htype). cbv zeta.
  match goal with
  | |- is_Ok (mbind _ (for_each ?b ?l ?s0)) ↔ _ =>
      pose proof (for_each_is_Ok _ b l
                    (λ x s1 _, regime_body_is_Ok _ x s1) s0) as Hloop;
      destruct (for_each b l s0) as [s1|e]
  end; simpl.
  - destruct Hloop as [Hloop _]. split; [intros _|intros _; by eexists].
    assert (is_Ok (Ok s1)) as Hok by by eexists.
    specialize (Hloop Hok). rewrite Forall_forall in Hloop.
    intros regime condition Hr Hc. specialize (Hloop regime Hr).
    rewrite Forall_forall in Hloop. by apply Hloop.
  - destruct Hloop as [_ Hloop]. split; [by intros [? ?]|intros Hall].
    destruct Hloop as [? [=]]. rewrite Forall_forall. intros regime Hr.
    rewrite Forall_forall. intros condition Hc. by apply Hall.
Qed.

Lemma new_succeeds_iff_witness :
  is_Ok (SpineMLNeuronModel.new "model.xml"
           (SpineMLNeuronModel.Loaded (mk_document spiking_component)) ∅)
  ↔ ∀ regime condition,
      regime ∈ regimes_of (Some spiking_component) →
      condition ∈ kids_named regime "OnCondition" →
      has_trigger condition ∧
      (has_multiple_regimes (Some spiking_component) = false →
       attr condition "target_regime" = attr regime "name").
Proof. apply new_succeeds_iff; reflexivity. Defined.

(** An exception of a loop is an exception of its body. *)
Lemma for_each_Err_only {A S} (P : string → Prop) (body : A → S → result S)
    l s e :
  (∀ x s e, body x s = Err e → P e) → for_each body l s = Err e → P e.
Proof.
  intros Hbody. revert s. induction l as [|x l IH]; intros s; [done|].
  simpl. destruct (body x s) as [s'|e'] eqn:Hx; simpl; [apply IH|].
  intros [= <-]. by apply (Hbody x s).
Qed.

(** X12. Whatever the file and the selection of variable parameters, the
    constructor either builds the model or throws one of its five
    messages; a file that cannot be loaded, a missing SpineML root and a
    missing or mistyped ComponentClass are reported in this order, before
    any regime is looked at. *)
Theorem new_throws_only_its_messages url file variableParams :
  match SpineMLNeuronModel.new url file variableParams with
  | Ok _ =>
      ∃ doc componentClass,
        file = SpineMLNeuronModel.Loaded doc ∧
        child (child (Some doc) "SpineML") "ComponentClass"
          = Some componentClass ∧
        attr componentClass "type" = "neuron_body"
  | Err e =>
      match file with
      | SpineMLNeuronModel.LoadError description =>
          e = SpineMLNeuronModel.cannot_open url description
      | SpineMLNeuronModel.Loaded doc =>
          match child (Some doc) "SpineML" with
          | None => e = SpineMLNeuronModel.no_root url
          | Some root =>
              match child (Some root) "ComponentClass" with
              | None => e = SpineMLNeuronModel.wrong_component url
              | Some componentClass =>
                  if bool_decide (attr componentClass "type" = "neuron_body")
                  then e = SpineMLNeuronModel.no_trigger ∨
                       e = SpineMLNeuronModel.not_self_target
                  else e = SpineMLNeuronModel.wrong_component url
              end
          end
      end
  end.
Proof.
  destruct file as [doc|description]; [|done].
  destruct (child (Some doc) "SpineML") as [root|] eqn:Hroot;
    [|unfold SpineMLNeuronModel.new; by rewrite Hroot].
  destruct (child (Some root) "ComponentClass") as [cc|] eqn:Hcc;
    [|unfold SpineMLNeuronModel.new; by rewrite Hroot, Hcc].
  case_bool_decide as Htype.
  - assert (child (child (Some doc) "SpineML") "ComponentClass" = Some cc)
      as Hcc' by by rewrite Hroot.
    rewrite (new_loaded _ _ _ _ Hcc' Htype). cbv zeta.
    match goal with
    | |- match mbind _ (for_each ?b ?l ?s0) with _ => _ end =>
        destruct (for_each b l s0) as [s1|e] eqn:Hloop
    end; simpl.
    + exists doc, cc. by rewrite Hroot.
    + revert Hloop.
      apply (for_each_Err_only
               (λ e, e = SpineMLNeuronModel.no_trigger ∨
                     e = SpineMLNeuronModel.not_self_target)).
      clear.
      intros regime s e. unfold SpineMLNeuronModel.regime_body.
      match goal with
      | |- mbind _ (for_each ?b ?l ?s0) = _ → _ =>
          destruct (for_each b l s0) as [s1|e'] eqn:Hloop
      end; simpl; [done|]. intros [= <-].
      revert Hloop.
      apply (for_each_Err_only
               (λ e, e = SpineMLNeuronModel.no_trigger ∨
                     e = SpineMLNeuronModel.not_self_target)).
      clear.
      intros condition s e. unfold SpineMLNeuronModel.condition_body.
      destruct (is_null _); [intros [= <-]; by left|].
      destruct (has_multiple_regimes (Some cc)).
      * destruct (map_index _ _). simpl.
        destruct (SpineMLNeuronModel.emits_spike condition);
          [by destruct (map_index _ _)|done].
      * destruct (negb _); simpl; [intros [= <-]; by right|].
        destruct (SpineMLNeuronModel.emits_spike condition);
          [by destruct (map_index _ _)|done].
  - unfold SpineMLNeuronModel.new. rewrite Hroot, Hcc. cbn [is_null orb].
    fold (attr cc "type").
    destruct (String.eqb_spec (attr cc "type") "neuron_body"); [done|].
    done.
Qed.

(** ** Braces of the generated code *)

Lemma brace_stack_app open a b :
  brace_stack open (a ++ b) = brace_stack open a ≫= λ open', brace_stack open' b.
Proof.
  revert open. induction a as [|x a IH]; intros open; [done|].
  destruct x as [s|n|n|]; simpl; try apply IH.
  destruct open as [|m open]; [done|]. destruct (n =? m); [apply IH|done].
Qed.

Lemma neutral_nil : neutral [].
Proof. by intros open. Qed.

Lemma neutral_app a b : neutral a → neutral b → neutral (a ++ b).
Proof. intros Ha Hb open. by rewrite brace_stack_app, Ha; simpl. Qed.

Lemma neutral_Text s c : neutral c → neutral (Text s :: c).
Proof. intros Hc open. apply Hc. Qed.

Lemma neutral_ENDL c : neutral c → neutral (ENDL :: c).
Proof. intros Hc open. apply Hc. Qed.

Lemma neutral_block n c : neutral c → neutral (OB n :: c ++ [CB n]).
Proof.
  intros Hc open. simpl. rewrite brace_stack_app, Hc. simpl.
  by rewrite N.eqb_refl.
Qed.

Lemma neutral_balanced c : neutral c → balanced c.
Proof. intros Hc. apply Hc. Qed.

Lemma balanced_app_neutral a b : balanced a → neutral b → balanced (a ++ b).
Proof.
  unfold balanced. intros Ha Hb. by rewrite brace_stack_app, Ha; simpl.
Qed.

Create HintDb neutral.
#[local] Hint Resolve neutral_nil neutral_app neutral_Text neutral_ENDL
  neutral_block : neutral.

(** A loop whose every step appends a neutral piece appends a neutral
    piece. *)
Lemma for_each_neutral {A S} (out : S → code) (body : A → S → result S) l :
  (∀ x s s', body x s = Ok s' →
             ∃ block, neutral block ∧ out s' = out s ++ block) →
  ∀ s s', for_each body l s = Ok s' →
          ∃ block, neutral block ∧ out s' = out s ++ block.
Proof.
  intros Hbody. induction l as [|x l IH]; intros s s'; simpl.
  - intros [= <-]. exists []. by rewrite app_nil_r; auto with neutral.
  - destruct (body x s) as [s1|e] eqn:Hx; simpl; [|done]. intros Hl.
    destruct (IH _ _ Hl) as (b2 & Hb2 & ->).
    destruct (Hbody _ _ _ Hx) as (b1 & Hb1 & ->).
    exists (b1 ++ b2). by rewrite app_assoc; auto with neutral.
Qed.

Lemma state_assignments_neutral (assigns : list xml_tree) (sim : code) :
  ∃ block,
    neutral block ∧
    foldl (λ sim stateAssign,
             sim << Text (attr stateAssign "variable") << Text " = "
                 << Text (child_value (Some stateAssign) "MathInline")
                 << Text ";" << ENDL)
          sim assigns
    = sim ++ block.
Proof.
  revert sim. induction assigns as [|a assigns IH]; intros sim; simpl.
  - exists []. by rewrite app_nil_r; auto with neutral.
  - destruct (IH (sim << Text (attr a "variable") << Text " = "
                      << Text (child_value (Some a) "MathInline")
                      << Text ";" << ENDL)) as (block & Hblock & ->).
    eexists (_ :: _ :: _ :: _ :: _ :: block).
    split; [|unfold put; by rewrite <- !app_assoc]. auto 10 with neutral.
Qed.

Lemma condition_body_neutral multipleRegimes regimeName condition s s' :
  SpineMLNeuronModel.condition_body multipleRegimes regimeName condition s
    = Ok s' →
  ∃ block,
    neutral block ∧
    SpineMLNeuronModel.simCode s' = SpineMLNeuronModel.simCode s ++ block.
Proof.
  unfold SpineMLNeuronModel.condition_body.
  destruct (is_null _); [done|].
  match goal with
  | |- context [foldl ?f ?sim0 ?l] =>
      destruct (state_assignments_neutral l sim0) as (block & Hblock & Hfold);
      rewrite Hfold; clear Hfold
  end.
  assert (∀ ids sim thr first extra,
            neutral extra →
            sim = (SpineMLNeuronModel.simCode s << Text "if("
                     << Text (text (child (child (Some condition) "Trigger")
                                      "MathInline"))
                     << Text ")" << OB 2) ++ block ++ extra →
            s' = SpineMLNeuronModel.mk_loop ids (sim << CB 2) thr first →
            ∃ block,
              neutral block ∧
              SpineMLNeuronModel.simCode s'
              = SpineMLNeuronModel.simCode s ++ block) as Hend.
  { intros ids sim thr first extra Hextra -> ->. simpl.
    eexists (_ :: _ :: _ :: OB 2 :: (block ++ extra) ++ [CB 2]).
    split; [|unfold put; by rewrite <- !app_assoc]. auto 10 with neutral. }
  destruct multipleRegimes.
  - destruct (map_index _ _) as [tgt ids]. simpl.
    destruct (SpineMLNeuronModel.emits_spike condition);
      [destruct (map_index ids regimeName)|];
      intros [= <-];
      (eapply (Hend _ _ _ _ [Text "_regimeID = "; Text (pretty tgt);
                             Text ";"; ENDL]);
       [| |reflexivity];
       [auto with neutral
       |unfold put_unsigned, put; by rewrite <- !app_assoc]).
  - destruct (negb _); [done|]. simpl.
    destruct (SpineMLNeuronModel.emits_spike condition);
      [destruct (map_index _ regimeName)|];
      intros [= <-];
      (eapply (Hend _ _ _ _ []); [| |reflexivity];
       [auto with neutral|by rewrite app_nil_r]).
Qed.

Lemma regime_body_neutral multipleRegimes regime s s' :
  SpineMLNeuronModel.regime_body multipleRegimes regime s = Ok s' →
  ∃ block,
    neutral block ∧
    SpineMLNeuronModel.simCode s' = SpineMLNeuronModel.simCode s ++ block.
Proof.
  unfold SpineMLNeuronModel.regime_body.
  match goal with
  | |- mbind _ (for_each ?b ?l ?s0) = _ → _ =>
      pose proof (for_each_neutral SpineMLNeuronModel.simCode b l
                    (condition_body_neutral _ _) s0) as Hloop;
      destruct (for_each b l s0) as [s1|e]
  end; simpl; [|done].
  destruct (Hloop s1 eq_refl) as (block & Hblock & Hsim). clear Hloop.
  intros [= <-]. simpl. rewrite Hsim. clear Hsim.
  set (td := child (Some regime) "TimeDerivative").
  assert (∃ tail, neutral tail ∧
            (if is_null td then SpineMLNeuronModel.simCode s1
             else SpineMLNeuronModel.simCode s1
                    << Text (attribute_value td "variable")
                    << Text " += DT * ("
                    << Text (child_value td "MathInline")
                    << Text ");" << ENDL)
            = SpineMLNeuronModel.simCode s1 ++ tail) as Htd.
  { destruct (is_null td).
    - exists []. by rewrite app_nil_r; auto with neutral.
    - eexists [_; _; _; _; _].
      split; [|unfold put; by rewrite <- !app_assoc]. auto 10 with neutral. }
  destruct multipleRegimes.
  - destruct (SpineMLNeuronModel.firstRegime s);
      destruct (map_index _ _) as [id ids]; simpl;
      destruct (is_null td); simpl.
    + eexists (_ :: _ :: _ :: OB 1 :: block ++ [CB 1]).
      split; [|unfold put_unsigned, put; by rewrite <- !app_assoc].
      auto 10 with neutral.
    + eexists (_ :: _ :: _ :: OB 1 :: (block ++ [_; _; _; _; _]) ++ [CB 1]).
      split; [|unfold put_unsigned, put; by rewrite <- !app_assoc].
      auto 10 with neutral.
    + eexists (_ :: _ :: _ :: _ :: OB 1 :: block ++ [CB 1]).
      split; [|unfold put_unsigned, put; by rewrite <- !app_assoc].
      auto 10 with neutral.
    + eexists (_ :: _ :: _ :: _ :: OB 1
                 :: (block ++ [_; _; _; _; _]) ++ [CB 1]).
      split; [|unfold put_unsigned, put; by rewrite <- !app_assoc].
      auto 10 with neutral.
  - destruct (is_null td); simpl.
    + by exists block.
    + eexists (block ++ [_; _; _; _; _]).
      split; [|unfold put; by rewrite <- !app_assoc].
      auto 10 with neutral.
Qed.

(** X13. The simulation code of a model the constructor builds has balanced
    braces: every brace the constructor opens for a regime (level 1) or a
    condition (level 2) is closed by a brace of the same level, and
    nothing is closed that was not opened. *)
Theorem neuron_SimCode_balanced url file variableParams model :
  SpineMLNeuronModel.new url file variableParams = Ok model →
  balanced (SpineMLNeuronModel.m_SimCode model).
Proof.
  unfold SpineMLNeuronModel.new.
  destruct file as [doc|description]; [|done].
  destruct (is_null _); [done|]. destruct (_ || _); [done|].
  destruct (findModelVariables _ _ _) as [paramNames vars].
  match goal with
  | |- mbind _ (for_each ?b ?l ?s0) = _ → _ =>
      pose proof (for_each_neutral SpineMLNeuronModel.simCode b l
                    (regime_body_neutral _) s0) as Hloop;
      destruct (for_each b l s0) as [s1|e]
  end; simpl; [|done].
  destruct (Hloop s1 eq_refl) as (block & Hblock & Hsim).
  intros [= <-]. simpl. rewrite Hsim. by apply neutral_balanced.
Qed.

Lemma neuron_SimCode_balanced_witness :
  balanced (SpineMLNeuronModel.m_SimCode spiking_model).
Proof.
  apply (neuron_SimCode_balanced "model.xml"
           (SpineMLNeuronModel.Loaded (mk_document spiking_component)) ∅
           spiking_model).
  vm_compute. reflexivity.
Defined.

(** ** Braces of a [CodeStream] *)

Lemma onRegimeEnd_buffer_empty multipleRegimes currentRegimeID cs :
  CodeStream.m_CurrentRegimeStream
    (CodeStream.onRegimeEnd multipleRegimes currentRegimeID cs) = "".
Proof.
  rewrite onRegimeEnd_step. cbv zeta.
  destruct (decide _) as [Hempty|Hfull]; [done|].
  by destruct multipleRegimes.
Qed.

Section text_braces_properties.

Variable char_braces : ascii → list N → option (list N).
Hypothesis Hcurly : only_curly char_braces.

Lemma code_stack_app open a b :
  code_stack char_braces open (a ++ b)
  = code_stack char_braces open a ≫= λ open', code_stack char_braces open' b.
Proof.
  revert open. induction a as [|x a IH]; intros open; [done|].
  destruct x as [s|n|n|]; simpl; try apply IH.
  - destruct (text_stack char_braces open s); simpl; [apply IH|done].
  - destruct open as [|m open]; [done|]. destruct (n =? m); [apply IH|done].
Qed.

Lemma neutral_code_app a b :
  neutral_code char_braces a → neutral_code char_braces b →
  neutral_code char_braces (a ++ b).
Proof. intros Ha Hb open. by rewrite code_stack_app, Ha; simpl. Qed.

Lemma balanced_code_app a b :
  balanced_code char_braces a → neutral_code char_braces b →
  balanced_code char_braces (a ++ b).
Proof.
  unfold balanced_code. intros Ha Hb. by rewrite code_stack_app, Ha; simpl.
Qed.

(** A text without curly braces leaves the open braces alone. *)
Lemma neutral_text_plain s :
  all_chars (λ c, negb (is_curly c)) s = true → neutral_text char_braces s.
Proof.
  induction s as [|c s IH]; intros Hs open; [done|].
  simpl in Hs. apply andb_true_iff in Hs as [Hc Hs].
  unfold is_curly in Hc. apply negb_true_iff, orb_false_iff in Hc as [Ho Hcl].
  apply Ascii.eqb_neq in Ho, Hcl. simpl.
  rewrite (Hcurly c open Ho Hcl). simpl. by apply IH.
Qed.

Lemma pretty_N_go_plain (x : N) s :
  all_chars (λ c, negb (is_curly c)) s = true →
  all_chars (λ c, negb (is_curly c)) (pretty_N_go x s) = true.
Proof.
  revert s. induction (N.lt_wf_0 x) as [x _ IH]; intros s Hs.
  assert (x = 0 ∨ 0 < x) as [->|Hx] by lia.
  - by rewrite pretty_N_go_0.
  - rewrite pretty_N_go_step by done. apply IH; [by apply N.div_lt|].
    simpl. rewrite Hs, andb_true_r.
    unfold pretty_N_char. by repeat case_match.
Qed.

Lemma pretty_N_plain (x : N) :
  all_chars (λ c, negb (is_curly c)) (pretty x) = true.
Proof.
  unfold pretty, pretty_N. destruct (decide (x = 0)); [done|].
  by apply pretty_N_go_plain.
Qed.

Lemma neutral_code_Text s c :
  neutral_text char_braces s → neutral_code char_braces c →
  neutral_code char_braces (Text s :: c).
Proof. intros Hs Hc open. simpl. rewrite Hs. simpl. apply Hc. Qed.

Lemma guarded_neutral first id body :
  neutral_text char_braces body →
  neutral_code char_braces (guarded first id body).
Proof.
  intros Hbody. unfold guarded. apply neutral_code_app.
  - destruct first; [done|].
    apply neutral_code_Text; [by apply neutral_text_plain|done].
  - apply neutral_code_Text; [by apply neutral_text_plain|].
    apply neutral_code_Text; [apply neutral_text_plain, pretty_N_plain|].
    apply neutral_code_Text; [by apply neutral_text_plain|].
    intros open. simpl. by rewrite Hbody.
Qed.

Lemma assemble_neutral multipleRegimes first (blocks : list (N * string)) :
  Forall (λ block, neutral_text char_braces block.2) blocks →
  neutral_code char_braces (assemble multipleRegimes first blocks).
Proof.
  intros Hblocks. revert first.
  induction Hblocks as [|[id body] blocks Hbody _ IH]; intros first; [done|].
  simpl. destruct (decide (body = "")); [apply IH|].
  destruct multipleRegimes.
  - apply neutral_code_app; [by apply guarded_neutral|apply IH].
  - apply neutral_code_Text; [done|apply IH].
Qed.

(** X14. Braces counted both as manipulators and inside text, under any
    reading of the characters in which only the curly braces count: when
    the text in the buffer of the regime closes every brace it opens and
    opens none it does not close, the end of the regime keeps the main
    stream balanced, for either value of the flag and every ID.  It
    leaves the buffer empty, so a second regime end right behind it, with
    whatever flag and ID, changes nothing. *)
Theorem onRegimeEnd_balanced_and_idempotent multipleRegimes currentRegimeID cs :
  neutral_text char_braces (CodeStream.m_CurrentRegimeStream cs) →
  balanced_code char_braces (CodeStream.m_CodeStream cs) →
  let cs' := CodeStream.onRegimeEnd multipleRegimes currentRegimeID cs in
  balanced_code char_braces (CodeStream.m_CodeStream cs') ∧
  CodeStream.m_CurrentRegimeStream cs' = "" ∧
  ∀ multipleRegimes' currentRegimeID',
    CodeStream.onRegimeEnd multipleRegimes' currentRegimeID' cs' = cs'.
Proof.
  intros Hbuffer Hcs cs'. split; [|split].
  - unfold cs'. rewrite onRegimeEnd_step. cbv zeta.
    destruct (decide _) as [Hempty|Hfull]; [done|].
    destruct multipleRegimes; simpl; apply balanced_code_app; try done.
    + by apply guarded_neutral.
    + by apply neutral_code_Text.
  - apply onRegimeEnd_buffer_empty.
  - intros m' id'. unfold CodeStream.onRegimeEnd at 1.
    unfold cs'. by rewrite onRegimeEnd_buffer_empty.
Qed.

(** X15. With handlers that write text into the buffer of the current
    regime, and braces counted as in X14: when, for every regime, the
    texts its handlers write close together every brace they open, the
    main stream [generateModelCode] leaves behind is balanced, with and
    without several regimes. *)
Theorem generateModelCode_text_balanced
    (emit : handler → xml_tree → N → N → string) (componentClass : xml_node) :
  Forall (λ regime,
            neutral_text char_braces
              (regime_block emit (build_regimeIDs (regimes_of componentClass))
                            regime).2)
         (regimes_of componentClass) →
  ∃ cs,
    generateModelCode_text emit componentClass
      = Ok (has_multiple_regimes componentClass, cs) ∧
    balanced_code char_braces (CodeStream.m_CodeStream cs).
Proof.
  intros Hregimes. unfold generateModelCode_text.
  destruct (replay_regimes emit (build_regimeIDs (regimes_of componentClass))
              (has_multiple_regimes componentClass)
              (regimes_of componentClass) CodeStream.init eq_refl)
    as (cs & Hrun & Hout & _).
  exists cs. rewrite generateModelCode_replay. unfold model_calls.
  rewrite Hrun. split; [done|].
  rewrite Hout. apply balanced_code_app; [done|].
  apply assemble_neutral. by rewrite Forall_fmap.
Qed.

End text_braces_properties.

Lemma curly_braces_only_curly : only_curly curly_braces.
Proof.
  intros c open Ho Hc. unfold curly_braces.
  apply Ascii.eqb_neq in Ho, Hc. by rewrite Ho, Hc.
Qed.

(** The buffer holds a block of its own. *)
Lemma onRegimeEnd_balanced_and_idempotent_witness :
  let cs := CodeStream.write "{ V += 1; }" CodeStream.init in
  let cs' := CodeStream.onRegimeEnd true 3 cs in
  balanced_code curly_braces (CodeStream.m_CodeStream cs') ∧
  CodeStream.m_CurrentRegimeStream cs' = "" ∧
  ∀ multipleRegimes' currentRegimeID',
    CodeStream.onRegimeEnd multipleRegimes' currentRegimeID' cs' = cs'.
Proof.
  apply (onRegimeEnd_balanced_and_idempotent curly_braces
           curly_braces_only_curly true 3
           (CodeStream.write "{ V += 1; }" CodeStream.init)).
  - intros open. reflexivity.
  - reflexivity.
Defined.

(** Regime A writes a block for its time derivative, regime B nothing. *)
Lemma generateModelCode_text_balanced_witness :
  ∃ cs,
    generateModelCode_text emit_derivative (Some only_A_component)
      = Ok (has_multiple_regimes (Some only_A_component), cs) ∧
    balanced_code curly_braces (CodeStream.m_CodeStream cs).
Proof.
  apply (generateModelCode_text_balanced curly_braces curly_braces_only_curly
           emit_derivative (Some only_A_component)).
  repeat constructor; intros open; reflexivity.
Defined.

(** ** The threshold condition *)

Lemma for_each_iff {A S} (Q : S → Prop) (P : A → Prop)
    (body : A → S → result S) l :
  (∀ x s s', body x s = Ok s' → Q s' ↔ Q s ∧ P x) →
  ∀ s s', for_each body l s = Ok s' → Q s' ↔ Q s ∧ Forall P l.
Proof.
  intros Hbody. induction l as [|x l IH]; intros s s'; simpl.
  - intros [= <-]. split; [by split|by intros [? _]].
  - destruct (body x s) as [s1|e] eqn:Hx; simpl; [|done]. intros Hl.
    rewrite (IH _ _ Hl), (Hbody _ _ _ Hx), Forall_cons. tauto.
Qed.

Lemma condition_body_threshold multipleRegimes regimeName condition s s' :
  SpineMLNeuronModel.condition_body multipleRegimes regimeName condition s
    = Ok s' →
  SpineMLNeuronModel.thresholdCondition s' = ""
  ↔ SpineMLNeuronModel.thresholdCondition s = "" ∧
    SpineMLNeuronModel.emits_spike condition = false.
Proof.
  unfold SpineMLNeuronModel.condition_body.
  destruct (is_null _); [done|].
  match goal with
  | |- mbind _ ?r = _ → _ => destruct r as [[ids sim]|e]; simpl; [|done]
  end.
  destruct (SpineMLNeuronModel.emits_spike condition).
  - destruct (map_index ids regimeName) as [id ids']. intros [= <-]. simpl.
    split; [|by intros [_ ?]]. intros Hthr.
    apply (f_equal String.length) in Hthr.
    rewrite !length_append in Hthr. simpl in Hthr. lia.
  - intros [= <-]. simpl. tauto.
Qed.

Lemma regime_body_threshold multipleRegimes regime s s' :
  SpineMLNeuronModel.regime_body multipleRegimes regime s = Ok s' →
  SpineMLNeuronModel.thresholdCondition s' = ""
  ↔ SpineMLNeuronModel.thresholdCondition s = "" ∧
    Forall (λ condition, SpineMLNeuronModel.emits_spike condition = false)
           (kids_named regime "OnCondition").
Proof.
  unfold SpineMLNeuronModel.regime_body.
  match goal with
  | |- mbind _ (for_each ?b ?l ?s0) = _ → _ =>
      pose proof (for_each_iff
                    (λ s, SpineMLNeuronModel.thresholdCondition s = "")
                    _ b l (condition_body_threshold _ _) s0) as Hloop;
      destruct (for_each b l s0) as [s1|e]
  end; simpl; [|done].
  intros [= <-]. simpl. rewrite (Hloop s1 eq_refl).
  destruct multipleRegimes; [|done].
  by destruct (SpineMLNeuronModel.firstRegime s), (map_index _ _).
Qed.

(** X16. The threshold condition of a model the constructor builds is empty
    exactly when no condition of any regime sends a spike. *)
Theorem threshold_empty_iff_no_spike url doc variableParams componentClass
    model :
  child (child (Some doc) "SpineML") "ComponentClass" = Some componentClass →
  SpineMLNeuronModel.new url (SpineMLNeuronModel.Loaded doc) variableParams
    = Ok model →
  SpineMLNeuronModel.m_ThresholdConditionCode model = ""
  ↔ ∀ regime condition,
      regime ∈ regimes_of (Some componentClass) →
      condition ∈ kids_named regime "OnCondition" →
      SpineMLNeuronModel.emits_spike condition = false.
Proof.
  intros Hcc. unfold SpineMLNeuronModel.new. rewrite Hcc.
  destruct (is_null _); [done|]. destruct (_ || _); [done|].
  destruct (findModelVariables _ _ _) as [paramNames vars].
  fold (regimes_of (Some componentClass)).
  match goal with
  | |- mbind _ (for_each ?b ?l ?s0) = _ → _ =>
      pose proof (for_each_iff
                    (λ s, SpineMLNeuronModel.thresholdCondition s = "")
                    _ b l (regime_body_threshold _) s0) as Hloop;
      destruct (for_each b l s0) as [s1|e]
  end; simpl; [|done].
  intros [= <-]. simpl. rewrite (Hloop s1 eq_refl). simpl.
  rewrite Forall_forall. setoid_rewrite Forall_forall.
  split; [intros [_ H] regime condition Hr Hc; by apply (H regime)|].
  intros H. split; [done|]. intros regime Hr condition Hc. by apply (H regime).
Qed.

Lemma threshold_empty_iff_no_spike_witness :
  SpineMLNeuronModel.m_ThresholdConditionCode spiking_model = ""
  ↔ ∀ regime condition,
      regime ∈ regimes_of (Some spiking_component) →
      condition ∈ kids_named regime "OnCondition" →
      SpineMLNeuronModel.emits_spike condition = false.
Proof.
  apply (threshold_empty_iff_no_spike "model.xml"
           (mk_document spiking_component) ∅ spiking_component
           spiking_model).
  - reflexivity.
  - vm_compute. reflexivity.
Defined.

(** ** The helper functions of the generator's entry point *)

Lemma insert_new_lookup `{Countable K} {V} (m : gmap K V) k v k' :
  insert_new m k v !! k'
  = match m !! k' with
    | Some v' => Some v'
    | None => if decide (k = k') then Some v else None
    end.
Proof.
  unfold insert_new. destruct (m !! k) as [v0|] eqn:Hk.
  - destruct (m !! k') as [v'|] eqn:Hk'; [done|].
    destruct (decide (k = k')) as [->|]; [congruence|done].
  - destruct (decide (k = k')) as [->|Hne].
    + by rewrite lookup_insert_eq, Hk.
    + rewrite lookup_insert_ne by done. by destruct (m !! k').
Qed.

Section generator_properties.

Variable path_str : string → string.
Variable as_double : string → double.

Lemma readModelProperties_fold (props : list xml_tree)
    (modelParams : ModelParams) (fixedParamVals : gmap string double) :
  let r :=
    foldl (λ '(modelParams, fixedParamVals) param,
             let paramName := attr param "name" in
             let fixedValue := child (Some param) "FixedValue" in
             if negb (is_null fixedValue) then
               (modelParams,
                insert_new fixedParamVals paramName
                           (attribute_as_double as_double fixedValue "value"))
             else
               ((modelParams.1, {[paramName]} ∪ modelParams.2),
                fixedParamVals))
          (modelParams, fixedParamVals) props in
  r.1.1 = modelParams.1 ∧
  (∀ name,
     name ∈ r.1.2 ↔
     name ∈ modelParams.2 ∨
     ∃ p, p ∈ props ∧ attr p "name" = name ∧
          is_null (child (Some p) "FixedValue") = true) ∧
  (∀ name,
     r.2 !! name
     = match fixedParamVals !! name with
       | Some v => Some v
       | None =>
           (λ p, attribute_as_double as_double (child (Some p) "FixedValue")
                                     "value")
             <$> head (filter (λ p, attr p "name" = name ∧
                                    is_null (child (Some p) "FixedValue")
                                    = false) props)
       end).
Proof.
  revert modelParams fixedParamVals.
  induction props as [|p props IH]; intros modelParams fixedParamVals.
  - simpl. split; [done|]. split.
    + intros name. split; [by left|]. intros [?|(p & Hp & _)]; [done|].
      by apply elem_of_nil in Hp.
    + intros name. by destruct (fixedParamVals !! name).
  - cbn [foldl]. cbv zeta.
    destruct (is_null (child (Some p) "FixedValue")) eqn:Hfixed;
      cbn [negb].
    + match goal with
      | |- context [foldl ?f (?mp, ?fx) props] =>
          destruct (IH mp fx) as (Hurl & Hvar & Hfix)
      end.
      split; [done|]. split.
      * intros name. rewrite Hvar. cbn [fst snd].
        rewrite elem_of_union, elem_of_singleton.
        setoid_rewrite elem_of_cons. split.
        -- intros [[->|?]|(q & ? & ? & ?)]; [right; exists p; by split; [left|]|by left|].
           right. exists q. auto.
        -- intros [?|(q & [->|?] & Hq & ?)]; [by left; right| |].
           ++ left. by left.
           ++ right. exists q. auto.
      * intros name. rewrite Hfix.
        destruct (fixedParamVals !! name); [done|].
        rewrite filter_cons_False; [done|]. intros [_ ?]. congruence.
    + match goal with
      | |- context [foldl ?f (?mp, ?fx) props] =>
          destruct (IH mp fx) as (Hurl & Hvar & Hfix)
      end.
      split; [done|]. split.
      * intros name. rewrite Hvar. setoid_rewrite elem_of_cons. split.
        -- intros [?|(q & ? & ? & ?)]; [by left|]. right. exists q. auto.
        -- intros [?|(q & [->|?] & Hq & ?)]; [by left|congruence|].
           right. exists q. auto.
      * intros name. rewrite Hfix, insert_new_lookup.
        destruct (fixedParamVals !! name) as [v|]; [done|].
        destruct (decide (attr p "name" = name)) as [Heq|Hne].
        -- by rewrite filter_cons_True.
        -- rewrite filter_cons_False; [done|]. by intros [? _].
Qed.

(** X17. [readModelProperties] sorts the Property children of a node by
    whether they have a FixedValue child: the names without one are the
    variable parameters, the names with one are the keys of the fixed
    values, and a name that has several fixed values keeps that of its
    first Property in document order.  Every name of a Property is found
    in one of the two, and the url is the node's url joined to the base
    path. *)
Theorem readModelProperties_split (node : xml_node) :
  let r := readModelProperties path_str as_double node in
  r.1.1 = path_str (attribute_value node "url") ∧
  (∀ name,
     name ∈ r.1.2 ↔
     ∃ p, p ∈ children node "Property" ∧ attr p "name" = name ∧
          is_null (child (Some p) "FixedValue") = true) ∧
  (∀ name,
     r.2 !! name
     = (λ p, attribute_as_double as_double (child (Some p) "FixedValue")
                                 "value")
         <$> head (fixed_properties node name)) ∧
  (∀ p, p ∈ children node "Property" →
        attr p "name" ∈ r.1.2 ∨ is_Some (r.2 !! attr p "name")).
Proof.
  intros r.
  pose proof (readModelProperties_fold (children node "Property")
                (path_str (attribute_value node "url"), ∅) ∅) as Hfold.
  cbv zeta in Hfold.
  change (foldl _ _ _) with r in Hfold.
  destruct Hfold as (Hurl & Hvar & Hfix).
  assert (∀ name,
            r.2 !! name
            = (λ p, attribute_as_double as_double
                      (child (Some p) "FixedValue") "value")
                <$> head (fixed_properties node name)) as Hfix'.
  { intros name. rewrite Hfix. by rewrite lookup_empty. }
  split; [done|]. split; [|split; [done|]].
  - intros name. rewrite Hvar. cbn [snd]. rewrite elem_of_empty. tauto.
  - intros p Hp.
    destruct (is_null (child (Some p) "FixedValue")) eqn:Hfixed.
    + left. apply Hvar. right. by exists p.
    + right. rewrite Hfix'.
      destruct (fixed_properties node (attr p "name")) as [|q l] eqn:Hl;
        [|by eexists].
      assert (p ∈ fixed_properties node (attr p "name")) as Hin
        by (unfold fixed_properties; by rewrite list_elem_of_filter).
      rewrite Hl in Hin. by apply elem_of_nil in Hin.
Qed.

Variable round_steps : double → double → N.

Lemma make_tuple_Ok {A B C} order (a : result A) (b : result B)
    (c : result C) x y z :
  make_tuple order a b c = Ok (x, y, z) ↔ a = Ok x ∧ b = Ok y ∧ c = Ok z.
Proof.
  destruct order, a, b, c; simpl; split;
    (intros [= -> -> ->] || intros ([= ->] & [= ->] & [= ->]) || intros [=]
     || intros (? & ? & ?)); done.
Qed.

Lemma make_tuple_Err {A B C} order (a : result A) (c : result C) e :
  ∃ e', make_tuple order a (Err e : result B) c = Err e'.
Proof. destruct order, a, c; simpl; by eexists. Qed.

Lemma readDelaySteps_Ok node dt steps :
  readDelaySteps as_double round_steps node dt = Ok steps ↔
  ∃ fixedValue,
    child (child node "Delay") "FixedValue" = Some fixedValue ∧
    steps = round_steps (attribute_as_double as_double (Some fixedValue)
                                             "value") dt.
Proof.
  unfold readDelaySteps.
  destruct (child node "Delay") as [delay|] eqn:Hdelay; simpl.
  - destruct (child (Some delay) "FixedValue") as [fixedValue|]; simpl.
    + split; [intros [= <-]; by eexists|by intros (? & [= <-] & ->)].
    + split; [done|by intros (? & ? & _)].
  - split; [done|]. intros (? & Hnone & _). by cbv in Hnone.
Qed.

Context {SynapseMatrixType : Type}.
Variables OneToOne_getMatrixType AllToAll_getMatrixType
          FixedProbability_getMatrixType List_getMatrixType
          : xml_node → N → N → bool → result SynapseMatrixType.
Variables OneToOne_estimateMaxRowLength AllToAll_estimateMaxRowLength
          FixedProbability_estimateMaxRowLength List_estimateMaxRowLength
          : xml_node → N → N → result N.
Variable order : evaluation_order.

#[local] Abbreviation matrix_type :=
  (getSynapticMatrixType as_double round_steps
     OneToOne_getMatrixType AllToAll_getMatrixType
     FixedProbability_getMatrixType List_getMatrixType
     OneToOne_estimateMaxRowLength AllToAll_estimateMaxRowLength
     FixedProbability_estimateMaxRowLength List_estimateMaxRowLength order).

(** X18. When [getSynapticMatrixType] returns, the synapse has a
    OneToOneConnection, AllToAllConnection or FixedProbabilityConnection
    child; the first of these kinds that is present is the connector that
    was used, it has a Delay with a FixedValue, and the delay returned is
    the rounded quotient of that value and the time step. *)
Theorem getSynapticMatrixType_returns node numPre numPost globalG dt
    matrixType delaySteps maxRowLength :
  matrix_type node numPre numPost globalG dt
    = Ok (matrixType, delaySteps, maxRowLength) →
  ∃ before tag after connector fixedValue,
    ["OneToOneConnection"; "AllToAllConnection"; "FixedProbabilityConnection"]
      = before ++ tag :: after ∧
    Forall (λ t, child node t = None) before ∧
    child node tag = Some connector ∧
    child (child (Some connector) "Delay") "FixedValue" = Some fixedValue ∧
    delaySteps
    = round_steps (attribute_as_double as_double (Some fixedValue) "value") dt.
Proof.
  unfold getSynapticMatrixType.
  destruct (child node "OneToOneConnection") as [c1|] eqn:H1; simpl.
  { rewrite make_tuple_Ok. intros (_ & Hdelay & _).
    apply readDelaySteps_Ok in Hdelay as (fv & Hfv & ->).
    eexists [], "OneToOneConnection", _, c1, fv. by repeat split. }
  destruct (child node "AllToAllConnection") as [c2|] eqn:H2; simpl.
  { rewrite make_tuple_Ok. intros (_ & Hdelay & _).
    apply readDelaySteps_Ok in Hdelay as (fv & Hfv & ->).
    eexists ["OneToOneConnection"], "AllToAllConnection", _, c2, fv.
    repeat split; [|done..]. by repeat constructor. }
  destruct (child node "FixedProbabilityConnection") as [c3|] eqn:H3; simpl.
  { rewrite make_tuple_Ok. intros (_ & Hdelay & _).
    apply readDelaySteps_Ok in Hdelay as (fv & Hfv & ->).
    eexists ["OneToOneConnection"; "AllToAllConnection"],
            "FixedProbabilityConnection", _, c3, fv.
    repeat split; [|done..]. by repeat constructor. }
  destruct (is_null (child node "ConnectionList")); simpl; [done|].
  rewrite make_tuple_Ok. by intros (_ & [=] & _).
Qed.

(** X19. A synapse whose only connector is a ConnectionList is never given
    a matrix type: whatever the connectors answer and in whatever order
    the three results are computed, the call throws, because the delay is
    read from the missing FixedProbabilityConnection; when the connector
    functions of the list return, the message is that of the missing
    Delay node.  Without a ConnectionList the message is that of the
    unsupported connection type. *)
Theorem getSynapticMatrixType_connection_list_throws node numPre numPost
    globalG dt :
  child node "OneToOneConnection" = None →
  child node "AllToAllConnection" = None →
  child node "FixedProbabilityConnection" = None →
  ∃ e,
    matrix_type node numPre numPost globalG dt = Err e ∧
    (child node "ConnectionList" = None → e = no_connection_type) ∧
    (child node "ConnectionList" ≠ None →
     ∀ matrixType maxRowLength,
       List_getMatrixType None numPre numPost globalG = Ok matrixType →
       List_estimateMaxRowLength None numPre numPost = Ok maxRowLength →
       e = no_delay_node).
Proof.
  intros H1 H2 H3. unfold getSynapticMatrixType. rewrite H1, H2, H3. simpl.
  destruct (child node "ConnectionList") as [list|]; simpl.
  - unfold readDelaySteps at 1. simpl.
    destruct (make_tuple_Err (B := N) order
                (List_getMatrixType None numPre numPost globalG)
                (List_estimateMaxRowLength None numPre numPost)
                no_delay_node) as [e He].
    exists e. split; [done|]. split; [done|].
    intros _ mt rows Hmt Hrows. rewrite Hmt, Hrows in He.
    destruct order; simpl in He; congruence.
  - exists no_connection_type. by repeat split.
Qed.

End generator_properties.

Lemma getSynapticMatrixType_returns_witness :
  ∃ before tag after connector fixedValue,
    ["OneToOneConnection"; "AllToAllConnection"; "FixedProbabilityConnection"]
      = before ++ tag :: after ∧
    Forall (λ t, child (Some all_to_all_synapse) t = None) before ∧
    child (Some all_to_all_synapse) tag = Some connector ∧
    child (child (Some connector) "Delay") "FixedValue" = Some fixedValue ∧
    10 = (λ _ _, 10) (attribute_as_double (λ _, double_1) (Some fixedValue)
                                          "value") double_1.
Proof.
  apply (getSynapticMatrixType_returns (λ _, double_1) (λ _ _, 10)
           (λ _ _ _ _, Ok ()) (λ _ _ _ _, Ok ()) (λ _ _ _ _, Ok ())
           (λ _ _ _ _, Ok ()) (λ _ _ _, Ok 1) (λ _ _ _, Ok 4)
           (λ _ _ _, Ok 4) (λ _ _ _, Ok 4) Order123
           (Some all_to_all_synapse) 4 4 true double_1 () 10 4).
  reflexivity.
Defined.

Lemma getSynapticMatrixType_connection_list_throws_witness :
  ∃ e,
    getSynapticMatrixType (λ _, double_1) (λ _ _, 10)
      (λ _ _ _ _, Ok ()) (λ _ _ _ _, Ok ()) (λ _ _ _ _, Ok ())
      (λ _ _ _ _, Ok ()) (λ _ _ _, Ok 1) (λ _ _ _, Ok 4)
      (λ _ _ _, Ok 4) (λ _ _ _, Ok 4) Order312
      (Some connection_list_synapse) 4 4 true double_1 = Err e ∧
    (child (Some connection_list_synapse) "ConnectionList" = None →
     e = no_connection_type) ∧
    (child (Some connection_list_synapse) "ConnectionList" ≠ None →
     ∀ matrixType maxRowLength,
       (λ _ _ _ _, Ok ()) (None : xml_node) 4 4 true = Ok matrixType →
       (λ _ _ _, Ok 4) (None : xml_node) 4 4 = Ok maxRowLength →
       e = no_delay_node).
Proof.
  apply (getSynapticMatrixType_connection_list_throws (λ _, double_1)
           (λ _ _, 10)
           (λ _ _ _ _, Ok ()) (λ _ _ _ _, Ok ()) (λ _ _ _ _, Ok ())
           (λ _ _ _ _, Ok ()) (λ _ _ _, Ok 1) (λ _ _ _, Ok 4)
           (λ _ _ _, Ok 4) (λ _ _ _, Ok 4) Order312
           (Some connection_list_synapse) 4 4 true double_1);
    reflexivity.
Defined.

(** X20. [getCreateModel] builds a model at most once per key: when it
    returns, the map holds the returned model under the key and every
    other key as before; a model that was there is returned without a
    call of the constructor and the map is left as it was; and a second
    call with the same key returns the same model and the same map
    whatever the constructor would do. *)
Theorem getCreateModel_builds_once {T} (construct : string → gset string → result T)
    (params : ModelParams) (models models' : gmap ModelParams T) (model : T) :
  getCreateModel construct params models = Ok (model, models') →
  models' !! params = Some model ∧
  (∀ k, k ≠ params → models' !! k = models !! k) ∧
  (is_Some (models !! params) → models' = models) ∧
  (models !! params = None → construct params.1 params.2 = Ok model) ∧
  ∀ construct', getCreateModel construct' params models' = Ok (model, models').
Proof.
  unfold getCreateModel.
  destruct (models !! params) as [existing|] eqn:Hfind.
  - intros [= <- <-]. rewrite Hfind. by repeat split.
  - destruct (construct params.1 params.2) as [newModel|e]; simpl; [|done].
    intros [= <- <-].
    assert (insert_new models params newModel !! params = Some newModel)
      as Hnew.
    { rewrite insert_new_lookup, Hfind. by rewrite decide_True. }
    rewrite Hnew. repeat split; try done.
    intros k Hk. rewrite insert_new_lookup.
    destruct (models !! k); [done|]. by rewrite decide_False.
Qed.

Lemma getCreateModel_builds_once_witness :
  let params : ModelParams := ("model.xml", ∅) in
  let construct := λ url variableParams,
    SpineMLNeuronModel.new url
      (SpineMLNeuronModel.Loaded (mk_document spiking_component))
      variableParams in
  let models' := insert_new ∅ params spiking_model in
  models' !! params = Some spiking_model ∧
  (∀ k, k ≠ params → models' !! k = (∅ : gmap ModelParams _) !! k) ∧
  (is_Some ((∅ : gmap ModelParams SpineMLNeuronModel.t) !! params) →
   models' = ∅) ∧
  ((∅ : gmap ModelParams SpineMLNeuronModel.t) !! params = None →
   construct params.1 params.2 = Ok spiking_model) ∧
  ∀ construct',
    getCreateModel construct' params models' = Ok (spiking_model, models').
Proof.
  intros params construct models'.
  apply (getCreateModel_builds_once construct params ∅ models' spiking_model).
  unfold getCreateModel. rewrite lookup_empty.
  assert (construct params.1 params.2 = Ok spiking_model) as ->
    by (vm_compute; reflexivity).
  reflexivity.
Defined.

(** ** [NeuronGroup] *)

(** X21. [checkNumDelaySlots] raises the number of delay slots to one more
    than the required delay when it is not above it already, and leaves it
    alone otherwise; a second call with the same delay changes nothing.
    At the largest [unsigned int] the sum wraps: the number of slots
    becomes zero. *)
Theorem checkNumDelaySlots_max requiredDelay g :
  requiredDelay < 2 ^ 32 →
  NeuronGroup.m_NumDelaySlots g < 2 ^ 32 →
  let g' := NeuronGroup.checkNumDelaySlots requiredDelay g in
  (requiredDelay < 2 ^ 32 - 1 →
   NeuronGroup.m_NumDelaySlots g'
   = N.max (NeuronGroup.m_NumDelaySlots g) (requiredDelay + 1)) ∧
  (requiredDelay = 2 ^ 32 - 1 → NeuronGroup.m_NumDelaySlots g' = 0) ∧
  NeuronGroup.m_NumDelaySlots g' < 2 ^ 32 ∧
  NeuronGroup.checkNumDelaySlots requiredDelay g' = g'.
Proof.
  intros Hdelay Hslots g'. unfold g', NeuronGroup.checkNumDelaySlots,
    NeuronGroup.getNumDelaySlots, to_unsigned.
  destruct (N.leb_spec (NeuronGroup.m_NumDelaySlots g) requiredDelay)
    as [Hle|Hgt]; cbn [NeuronGroup.m_NumDelaySlots].
  - assert ((requiredDelay + 1) mod 2 ^ 32 < 2 ^ 32) as Hmod
      by (apply N.mod_lt; lia).
    repeat split.
    + intros Hsmall. rewrite N.mod_small by lia. lia.
    + intros ->. reflexivity.
    + done.
    + destruct (N.leb_spec ((requiredDelay + 1) mod 2 ^ 32) requiredDelay)
        as [Hle'|Hgt']; [|done].
      cbn [NeuronGroup.getName NeuronGroup.getNeuronModel
           NeuronGroup.m_VarQueueRequired NeuronGroup.m_VarZeroCopyEnabled].
      done.
  - repeat split; [lia|lia|done|].
    destruct (N.leb_spec (NeuronGroup.m_NumDelaySlots g) requiredDelay);
      [lia|done].
Qed.

Lemma checkNumDelaySlots_max_witness :
  let g' := NeuronGroup.checkNumDelaySlots 4 sample_group in
  (4 < 2 ^ 32 - 1 →
   NeuronGroup.m_NumDelaySlots g'
   = N.max (NeuronGroup.m_NumDelaySlots sample_group) (4 + 1)) ∧
  (4 = 2 ^ 32 - 1 → NeuronGroup.m_NumDelaySlots g' = 0) ∧
  NeuronGroup.m_NumDelaySlots g' < 2 ^ 32 ∧
  NeuronGroup.checkNumDelaySlots 4 g' = g'.
Proof. apply (checkNumDelaySlots_max 4 sample_group); reflexivity. Defined.

Lemma updateVarQueues_fold code (vars : list (string * string)) g :
  let g' :=
    foldl (λ g v,
             if contains code (v.1 +:+ "_pre") then
               NeuronGroup.mk (NeuronGroup.getName g)
                 (NeuronGroup.getNeuronModel g) (NeuronGroup.m_NumDelaySlots g)
                 ({[v.1]} ∪ NeuronGroup.m_VarQueueRequired g)
                 (NeuronGroup.m_VarZeroCopyEnabled g)
             else g) g vars in
  NeuronGroup.getName g' = NeuronGroup.getName g ∧
  NeuronGroup.getNeuronModel g' = NeuronGroup.getNeuronModel g ∧
  NeuronGroup.m_NumDelaySlots g' = NeuronGroup.m_NumDelaySlots g ∧
  NeuronGroup.m_VarZeroCopyEnabled g' = NeuronGroup.m_VarZeroCopyEnabled g ∧
  ∀ var,
    var ∈ NeuronGroup.m_VarQueueRequired g' ↔
    var ∈ NeuronGroup.m_VarQueueRequired g ∨
    (var ∈ vars.*1 ∧ contains code (var +:+ "_pre") = true).
Proof.
  revert g. induction vars as [|v vars IH]; intros g; cbn [foldl].
  - repeat split; [by left|]. intros [?|[Hin _]]; [done|].
    by apply elem_of_nil in Hin.
  - cbv zeta.
    match goal with
    | |- context [foldl ?f ?g0 vars] =>
        destruct (IH g0) as (Hname & Hmodel & Hslots & Hzero & Hqueue)
    end.
    cbv zeta in Hname, Hmodel, Hslots, Hzero, Hqueue.
    rewrite Hname, Hmodel, Hslots, Hzero.
    destruct (contains code (v.1 +:+ "_pre")) eqn:Hcode;
      (split; [done|split; [done|split; [done|split; [done|]]]]);
      intros var; rewrite Hqueue;
      cbn [NeuronGroup.m_VarQueueRequired]; rewrite fmap_cons, elem_of_cons.
    + rewrite elem_of_union, elem_of_singleton. split.
      * intros [[->|?]|[? ?]]; [right; split; [by left|done]|by left|].
        right. split; [by right|done].
      * intros [?|[[->|?] ?]]; [left; by right|left; by left|].
        right. done.
    + split.
      * intros [?|[? ?]]; [by left|]. right. split; [by right|done].
      * intros [?|[[->|?] ?]]; [by left|congruence|]. by right.
Qed.

(** X22. After [updateVarQueues] a variable needs a queue exactly when it
    needed one before or it is a variable of the neuron model whose name
    followed by _pre occurs in the code; nothing else of the group
    changes, and no queue is ever given up. *)
Theorem updateVarQueues_spec code g var :
  let g' := NeuronGroup.updateVarQueues code g in
  NeuronGroup.isVarQueueRequired var g'
  = (NeuronGroup.isVarQueueRequired var g
     || (bool_decide (var ∈ (NeuronGroup.GetVars
                               (NeuronGroup.getNeuronModel g)).*1)
         && contains code (var +:+ "_pre"))) ∧
  NeuronGroup.getName g' = NeuronGroup.getName g ∧
  NeuronGroup.getNeuronModel g' = NeuronGroup.getNeuronModel g ∧
  NeuronGroup.m_NumDelaySlots g' = NeuronGroup.m_NumDelaySlots g ∧
  NeuronGroup.m_VarZeroCopyEnabled g' = NeuronGroup.m_VarZeroCopyEnabled g.
Proof.
  intros g'.
  destruct (updateVarQueues_fold code
              (NeuronGroup.GetVars (NeuronGroup.getNeuronModel g)) g)
    as (Hname & Hmodel & Hslots & Hzero & Hqueue).
  cbv zeta in Hname, Hmodel, Hslots, Hzero, Hqueue.
  split; [|done]. unfold NeuronGroup.isVarQueueRequired.
  apply eq_true_iff_eq.
  rewrite orb_true_iff, andb_true_iff, !bool_decide_eq_true.
  apply Hqueue.
Qed.

(** X23. [setVarZeroCopyEnabled] refuses a name that is no variable of the
    neuron model and changes nothing else of the group; for a variable,
    [isVarZeroCopyEnabled] afterwards answers what was set, the other
    variables answer as before, and setting the same again changes
    nothing. *)
Theorem setVarZeroCopyEnabled_round_trip var enabled g :
  match NeuronGroup.setVarZeroCopyEnabled var enabled g with
  | Ok g' =>
      var ∈ (NeuronGroup.GetVars (NeuronGroup.getNeuronModel g)).*1 ∧
      NeuronGroup.isVarZeroCopyEnabled var g' = enabled ∧
      (∀ other, other ≠ var →
                NeuronGroup.isVarZeroCopyEnabled other g'
                = NeuronGroup.isVarZeroCopyEnabled other g) ∧
      NeuronGroup.m_VarQueueRequired g' = NeuronGroup.m_VarQueueRequired g ∧
      NeuronGroup.m_NumDelaySlots g' = NeuronGroup.m_NumDelaySlots g ∧
      NeuronGroup.setVarZeroCopyEnabled var enabled g' = Ok g'
  | Err e =>
      ¬ (var ∈ (NeuronGroup.GetVars (NeuronGroup.getNeuronModel g)).*1) ∧
      e = "Cannot find variable " +:+ var
  end.
Proof.
  unfold NeuronGroup.setVarZeroCopyEnabled.
  case_bool_decide as Hvar; [|done].
  cbn [NeuronGroup.getNeuronModel NeuronGroup.getName
       NeuronGroup.m_NumDelaySlots NeuronGroup.m_VarQueueRequired
       NeuronGroup.m_VarZeroCopyEnabled].
  rewrite bool_decide_eq_true_2 by done.
  unfold NeuronGroup.isVarZeroCopyEnabled.
  cbn [NeuronGroup.m_VarZeroCopyEnabled].
  split; [done|]. split; [|split; [|split; [done|split; [done|]]]].
  - destruct enabled.
    + apply bool_decide_eq_true_2.
      rewrite elem_of_union, elem_of_singleton. by left.
    + apply bool_decide_eq_false_2.
      rewrite elem_of_difference, elem_of_singleton. tauto.
  - intros other Hother. apply bool_decide_ext. destruct enabled.
    + rewrite elem_of_union, elem_of_singleton. tauto.
    + rewrite elem_of_difference, elem_of_singleton. tauto.
  - do 2 f_equal. apply set_eq. intros x. destruct enabled.
    + rewrite !elem_of_union. tauto.
    + rewrite !elem_of_difference. tauto.
Qed.

Lemma addExtraGlobalParams_fold (g : NeuronGroup.t)
    (params : list (string * string)) (kernelParameters : gmap string string) k :
  foldl (λ kernelParameters p,
           let pnamefull := p.1 +:+ NeuronGroup.getName g in
           match kernelParameters !! pnamefull with
           | None =>
               if NeuronGroup.used g p.1
               then insert_new kernelParameters pnamefull p.2
               else kernelParameters
           | Some _ => kernelParameters
           end) kernelParameters params !! k
  = match kernelParameters !! k with
    | Some ty => Some ty
    | None =>
        snd <$> head (filter (λ p, p.1 +:+ NeuronGroup.getName g = k ∧
                                   NeuronGroup.used g p.1 = true) params)
    end.
Proof.
  revert kernelParameters.
  induction params as [|p params IH]; intros kernelParameters; cbn [foldl].
  - by destruct (kernelParameters !! k).
  - cbv zeta. rewrite IH. clear IH.
    destruct (kernelParameters !! (p.1 +:+ NeuronGroup.getName g))
      as [ty|] eqn:Hfind.
    + destruct (kernelParameters !! k) as [ty'|] eqn:Hk; [done|].
      rewrite filter_cons_False; [done|]. intros [<- _]. congruence.
    + destruct (NeuronGroup.used g p.1) eqn:Hused.
      * rewrite insert_new_lookup.
        destruct (kernelParameters !! k) as [ty'|] eqn:Hk; [done|].
        destruct (decide (p.1 +:+ NeuronGroup.getName g = k)) as [Heq|Hne].
        -- by rewrite filter_cons_True.
        -- rewrite filter_cons_False; [done|]. by intros [? _].
      * destruct (kernelParameters !! k) as [ty'|] eqn:Hk; [done|].
        rewrite filter_cons_False; [done|]. intros [_ ?]. congruence.
Qed.

(** X24. [addExtraGlobalParams] never changes or removes a kernel parameter
    that is registered: it adds, under the parameter's name followed by
    the name of the group, the type of the first extra global parameter of
    that name that the simulation, threshold or reset code of the neuron
    model uses, and nothing for a parameter no code uses.  A second call
    changes nothing. *)
Theorem addExtraGlobalParams_spec (kernelParameters : gmap string string) g :
  let kernelParameters' :=
    NeuronGroup.addExtraGlobalParams kernelParameters g in
  kernelParameters ⊆ kernelParameters' ∧
  (∀ k,
     kernelParameters !! k = None →
     kernelParameters' !! k
     = snd <$> head (filter (λ p, p.1 +:+ NeuronGroup.getName g = k ∧
                                  NeuronGroup.used g p.1 = true)
                            (NeuronGroup.GetExtraGlobalParams
                               (NeuronGroup.getNeuronModel g)))) ∧
  NeuronGroup.addExtraGlobalParams kernelParameters' g = kernelParameters'.
Proof.
  intros kp'. unfold kp', NeuronGroup.addExtraGlobalParams.
  split; [|split].
  - apply map_subseteq_spec. intros k ty Hk.
    by rewrite addExtraGlobalParams_fold, Hk.
  - intros k Hk. by rewrite addExtraGlobalParams_fold, Hk.
  - apply map_eq. intros k. rewrite addExtraGlobalParams_fold.
    destruct (foldl _ kernelParameters _ !! k) as [ty|] eqn:Hk'; [done|].
    rewrite addExtraGlobalParams_fold in Hk'.
    by destruct (kernelParameters !! k).
Qed.

(** ** Exceptions of the handlers *)

(** X25. An exception of a handler or of the regime-end callback ends
    [generateModelCode] and is passed on as it is: when the calls before
    some call of the traversal have gone through and that call throws,
    the traversal throws the same, whatever the calls behind it would
    do. *)
Theorem generateModelCode_first_exception {St}
    (hE hC hI hT : xml_tree → N → N → St → result St)
    (regimeEnd : bool → N → St → result St) componentClass st
    calls1 c calls2 st1 e :
  model_calls componentClass = calls1 ++ c :: calls2 →
  replay hE hC hI hT regimeEnd calls1 st = Ok st1 →
  dispatch hE hC hI hT regimeEnd c st1 = Err e →
  generateModelCode hE hC hI hT regimeEnd componentClass st = Err e.
Proof.
  intros Hcalls Hbefore Hthrow.
  rewrite generateModelCode_replay, Hcalls. unfold replay in *.
  rewrite for_each_app, Hbefore. simpl. by rewrite Hthrow.
Qed.

Lemma generateModelCode_first_exception_witness :
  generateModelCode (St := nat)
    (λ _ _ _ n, Ok (S n)) (λ _ _ _ n, Ok (S n)) (λ _ _ _ n, Ok (S n))
    (λ _ _ _ _, Err "no derivatives") (λ _ _ n, Ok n)
    (Some ghost_component) 0%nat
  = Err "no derivatives".
Proof.
  apply (generateModelCode_first_exception (St := nat)
           (λ _ _ _ n, Ok (S n)) (λ _ _ _ n, Ok (S n)) (λ _ _ _ n, Ok (S n))
           (λ _ _ _ _, Err "no derivatives") (λ _ _ n, Ok n)
           (Some ghost_component) 0%nat
           [OnObject hCondition
              (mk_condition "Ghost" [mk_trigger "V > 1"]) 0 0]
           (OnObject hTimeDerivative (mk_derivative "V" "-V / tau") 0 0)
           [RegimeEnd true 0;
            OnObject hTimeDerivative (mk_derivative "V" "1 / tau") 1 0;
            RegimeEnd true 1]
           1%nat "no derivatives");
    vm_compute; reflexivity.
Defined.
